(** * sqlt-plainkv: a bucketed key-value store over SQLite

    A shallow embedding of [sqlt-plainkv.go].  The store is a thin facade
    over [database/sql] and SQLite; the facade is embedded operation by
    operation, and the engine underneath is a small executable model:

    - the database file is a finite map from table names to tables, a table
      is a finite map from the primary key [(Bucket, KeyID)] to [Value];
    - a transaction handle carries its own working copy of the database,
      which replaces the file's content on commit and is lost otherwise;
    - every call that reaches the engine consumes one entry of a fault
      script carried by the world, so that an engine failure is an input
      like any other.

    A nil pointer dereference is the outcome [Panic].

    The model follows one store value used by one caller at a time, on a
    database file that nothing else writes; lock conflicts between
    connections are outside it. *)

From Stdlib Require Import ZArith String Ascii List DecimalString.
From Stdlib Require Import DecimalPos DecimalFacts.
From Stdlib.Strings Require Import Byte.
From stdpp Require Import gmap strings list fin_maps.

Open Scope string_scope.

(** ** Errors *)

(** The three sentinel errors of the package, the two sentinels of
    [database/sql] the code can meet, and any other engine error. *)
Inductive error : Type :=
| ErrBucketIdTooLong
| ErrKeyTooLong
| ErrValueTooLong
| ErrNoRows
| ErrTxDone
| EngineError (msg : string).

(** [errors.Is(err, sql.ErrNoRows)] *)
Definition is_ErrNoRows (e : error) : bool :=
  match e with ErrNoRows => true | _ => false end.

(** ** strconv *)

Module strconv.

(** [strconv.Itoa]: the decimal encoding, with a leading [-] below zero. *)
Definition Itoa (i : Z) : string := NilZero.string_of_int (Z.to_int i).

Inductive NumError := ErrSyntax | ErrRange.

Definition maxUint64 : Z := 18446744073709551615.

(** The digit loop of [strconv.ParseUint(s, 10, 64)]: the first offending
    byte decides between a syntax error and a range error. *)
Fixpoint parseDigits (s : string) (n : Z) : Z + NumError :=
  match s with
  | EmptyString => inl n
  | String c s' =>
      let d := (Z.of_nat (nat_of_ascii c) - 48)%Z in
      if negb ((0 <=? d) && (d <=? 9))%Z then inr ErrSyntax
      else if (maxUint64 / 10 + 1 <=? n)%Z then inr ErrRange
      else if (maxUint64 <? n * 10 + d)%Z then inr ErrRange
      else parseDigits s' (n * 10 + d)%Z
  end.

(** [strconv.Atoi] on a 64-bit platform: the value and the error of
    [ParseInt(s, 10, 0)] (the fast path for short strings agrees with it). *)
Definition Atoi (s : string) : Z * option NumError :=
  match s with
  | EmptyString => (0, Some ErrSyntax)%Z
  | String c rest =>
      let neg := Ascii.eqb c "-" in
      let body := if Ascii.eqb c "-" || Ascii.eqb c "+" then rest else s in
      match body with
      | EmptyString => (0, Some ErrSyntax)%Z
      | _ =>
          match parseDigits body 0%Z with
          | inr ErrSyntax => (0, Some ErrSyntax)%Z
          | inr ErrRange =>
              (if neg then - 2 ^ 63 else 2 ^ 63 - 1, Some ErrRange)%Z
          | inl un =>
              if negb neg && (2 ^ 63 <=? un)%Z then (2 ^ 63 - 1, Some ErrRange)%Z
              else if neg && (2 ^ 63 <? un)%Z then (- 2 ^ 63, Some ErrRange)%Z
              else (if neg then - un else un, None)%Z
          end
      end
  end.

End strconv.

(** Go's [int] on a 64-bit platform: addition wraps around. *)
Definition wrap_int (z : Z) : Z := ((z + 2 ^ 63) mod 2 ^ 64 - 2 ^ 63)%Z.

(** [len] of a string or of a byte slice, as a Go [int]. *)
Definition len_string (s : string) : Z := Z.of_nat (String.length s).
Definition len_bytes (b : list byte) : Z := Z.of_nat (List.length b).

(** ** The storage engine *)

Module sql.

(** Rows of one table, by primary key [(Bucket, KeyID)]. *)
Abbreviation Table := (gmap (string * string) (list byte)).

(** The tables of one database file, by table name. *)
Abbreviation Database := (gmap string Table).

(** [*sql.DB]: a connection pool on the database file. *)
Inductive DB : Type := Pool.

(** [*sql.Tx]: the statements issued so far live in the working copy
    [txData]; [txDone] is set by the first Commit or Rollback. *)
Record Tx : Type := mkTx { txDone : bool; txData : Database }.

(** [*sql.Rows]: the keys the cursor delivers and the error [Err] reports
    once [Next] has returned false. *)
Record Rows : Type := mkRows { rowKeys : list string; rowsErr : option error }.

(** The world outside the store: the committed content of the database
    file and the script of engine faults still to come.  An entry
    [Some msg] makes the next engine call fail with that message, [None]
    lets it through; an exhausted script means no more faults. *)
Record World : Type := mkWorld { disk : Database; faults : list (option string) }.

Definition next_fault (w : World) : option string * World :=
  (hd None (faults w), mkWorld (disk w) (tl (faults w))).

Definition set_disk (d : Database) (w : World) : World := mkWorld d (faults w).

(** *** SQL on one database value *)

Definition no_such_table (name : string) : error :=
  EngineError ("no such table: " ++ name).

(** [CREATE TABLE IF NOT EXISTS name (...)] *)
Definition create_table (name : string) (d : Database) : Database :=
  match d !! name with
  | Some _ => d
  | None => <[name := ∅]> d
  end.

(** [SELECT Value FROM name WHERE Bucket=? AND KeyID=?], then [Scan]. *)
Definition select_value (name bucket key : string) (d : Database)
  : list byte + error :=
  match d !! name with
  | None => inr (no_such_table name)
  | Some t =>
      match t !! (bucket, key) with
      | Some v => inl v
      | None => inr ErrNoRows
      end
  end.

(** [INSERT INTO name (Bucket, KeyID, Value) VALUES (?, ?, ?)
     ON CONFLICT(Bucket,KeyID) DO UPDATE SET Value=excluded.Value] *)
Definition upsert (name bucket key : string) (value : list byte) (d : Database)
  : Database + error :=
  match d !! name with
  | None => inr (no_such_table name)
  | Some t => inl (<[name := <[(bucket, key) := value]> t]> d)
  end.

(** [DELETE FROM name WHERE Bucket = ? AND KeyID = ?] *)
Definition delete_row (name bucket key : string) (d : Database)
  : Database + error :=
  match d !! name with
  | None => inr (no_such_table name)
  | Some t => inl (<[name := delete (bucket, key) t]> d)
  end.

(** SQLite folds the 26 upper case ASCII letters for [LIKE]. *)
Definition tolower (c : ascii) : ascii :=
  let n := nat_of_ascii c in
  if (65 <=? n)%nat && (n <=? 90)%nat then ascii_of_nat (n + 32) else c.

(** [s LIKE pat] without an ESCAPE clause: [%] stands for any run of
    characters, [_] for any one character, every other character for
    itself up to ASCII letter case.  Characters are bytes here, which is
    SQLite's reading of ASCII text. *)
Fixpoint like (pat : string) : string → bool :=
  match pat with
  | EmptyString => fun s => match s with EmptyString => true | _ => false end
  | String c pat' =>
      if Ascii.eqb c "%" then
        fix star (s : string) : bool :=
          like pat' s
          || match s with EmptyString => false | String _ s' => star s' end
      else if Ascii.eqb c "_" then
        fun s => match s with EmptyString => false | String _ s' => like pat' s' end
      else
        fun s =>
          match s with
          | EmptyString => false
          | String d s' => Ascii.eqb (tolower c) (tolower d) && like pat' s'
          end
  end.

(** The keys of the rows of [t] in [bucket] whose key is like [pat], in
    the order the table gives its rows. *)
Definition matching (bucket pat : string) (t : Table) : list string :=
  snd <$> filter (λ bk, bk.1 = bucket ∧ like pat bk.2 = true)
                 (fst <$> map_to_list t).

(** [SELECT KeyID FROM name WHERE Bucket=? AND KeyID LIKE ?] *)
Definition select_keys (name bucket pat : string) (d : Database)
  : list string + error :=
  match d !! name with
  | None => inr (no_such_table name)
  | Some t => inl (matching bucket pat t)
  end.

(** *** Calls on the pool

    A call on the pool works on the committed content of the file; a
    statement that fails leaves the file as it was. *)

(** [sql.Open("sqlite", dsn)] *)
Definition Open (dsn : string) (w : World) : (DB + error) * World :=
  match next_fault w with
  | (Some msg, w') => (inr (EngineError msg), w')
  | (None, w') => (inl Pool, w')
  end.

Definition DB_Close (h : DB) (w : World) : option error * World :=
  match next_fault w with
  | (Some msg, w') => (Some (EngineError msg), w')
  | (None, w') => (None, w')
  end.

Definition DB_Exec (h : DB) (stmt : Database → Database + error) (w : World)
  : option error * World :=
  match next_fault w with
  | (Some msg, w') => (Some (EngineError msg), w')
  | (None, w') =>
      match stmt (disk w') with
      | inl d => (None, set_disk d w')
      | inr e => (Some e, w')
      end
  end.

Definition DB_QueryRow_Scan (h : DB) (q : Database → list byte + error) (w : World)
  : (list byte + error) * World :=
  match next_fault w with
  | (Some msg, w') => (inr (EngineError msg), w')
  | (None, w') => (q (disk w'), w')
  end.

(** The cursor takes a second entry of the fault script for the
    iteration; a fault there ends the iteration at once. *)
Definition open_rows (ks : list string) (w : World) : Rows * World :=
  match next_fault w with
  | (Some msg, w') => (mkRows [] (Some (EngineError msg)), w')
  | (None, w') => (mkRows ks None, w')
  end.

Definition DB_Query (h : DB) (q : Database → list string + error) (w : World)
  : (Rows + error) * World :=
  match next_fault w with
  | (Some msg, w') => (inr (EngineError msg), w')
  | (None, w') =>
      match q (disk w') with
      | inl ks => let '(r, w'') := open_rows ks w' in (inl r, w'')
      | inr e => (inr e, w')
      end
  end.

Definition DB_Begin (h : DB) (w : World) : (Tx + error) * World :=
  match next_fault w with
  | (Some msg, w') => (inr (EngineError msg), w')
  | (None, w') => (inl (mkTx false (disk w')), w')
  end.

(** *** Calls on a transaction

    Every call on a finished transaction fails with [ErrTxDone] before
    the engine is reached. *)

Definition Tx_Exec (t : Tx) (stmt : Database → Database + error) (w : World)
  : option error * Tx * World :=
  if txDone t then (Some ErrTxDone, t, w)
  else
    match next_fault w with
    | (Some msg, w') => (Some (EngineError msg), t, w')
    | (None, w') =>
        match stmt (txData t) with
        | inl d => (None, mkTx false d, w')
        | inr e => (Some e, t, w')
        end
    end.

Definition Tx_QueryRow_Scan (t : Tx) (q : Database → list byte + error) (w : World)
  : (list byte + error) * Tx * World :=
  if txDone t then (inr ErrTxDone, t, w)
  else
    match next_fault w with
    | (Some msg, w') => (inr (EngineError msg), t, w')
    | (None, w') => (q (txData t), t, w')
    end.

Definition Tx_Query (t : Tx) (q : Database → list string + error) (w : World)
  : (Rows + error) * Tx * World :=
  if txDone t then (inr ErrTxDone, t, w)
  else
    match next_fault w with
    | (Some msg, w') => (inr (EngineError msg), t, w')
    | (None, w') =>
        match q (txData t) with
        | inl ks => let '(r, w'') := open_rows ks w' in (inl r, t, w'')
        | inr e => (inr e, t, w')
        end
    end.

(** Commit and Rollback finish the transaction whether or not the engine
    accepts them. *)
Definition Tx_Commit (t : Tx) (w : World) : option error * Tx * World :=
  if txDone t then (Some ErrTxDone, t, w)
  else
    match next_fault w with
    | (Some msg, w') => (Some (EngineError msg), mkTx true (txData t), w')
    | (None, w') => (None, mkTx true (txData t), set_disk (txData t) w')
    end.

Definition Tx_Rollback (t : Tx) (w : World) : option error * Tx * World :=
  if txDone t then (Some ErrTxDone, t, w)
  else
    match next_fault w with
    | (Some msg, w') => (Some (EngineError msg), mkTx true (txData t), w')
    | (None, w') => (None, mkTx true (txData t), w')
    end.

End sql.

(** ** The store *)

(** The struct of the package.  [db] and [tx] are its two pointers: [None]
    is nil, and since nothing else holds them the objects they point to are
    kept in place. *)
Record SQLtPlainKV : Type := mkKV {
  DSN : string;
  db : option sql.DB;
  tx : option sql.Tx;
  currBuckt : string;
  defTableName : string;
  autoClose : bool;
  inTransaction : bool
}.

Definition with_db (v : option sql.DB) (p : SQLtPlainKV) : SQLtPlainKV :=
  mkKV (DSN p) v (tx p) (currBuckt p) (defTableName p) (autoClose p) (inTransaction p).
Definition with_tx (v : option sql.Tx) (p : SQLtPlainKV) : SQLtPlainKV :=
  mkKV (DSN p) (db p) v (currBuckt p) (defTableName p) (autoClose p) (inTransaction p).
Definition with_currBuckt (v : string) (p : SQLtPlainKV) : SQLtPlainKV :=
  mkKV (DSN p) (db p) (tx p) v (defTableName p) (autoClose p) (inTransaction p).
Definition with_defTableName (v : string) (p : SQLtPlainKV) : SQLtPlainKV :=
  mkKV (DSN p) (db p) (tx p) (currBuckt p) v (autoClose p) (inTransaction p).
Definition with_inTransaction (v : bool) (p : SQLtPlainKV) : SQLtPlainKV :=
  mkKV (DSN p) (db p) (tx p) (currBuckt p) (defTableName p) (autoClose p) v.

Definition mimeBuckt : string := "--mime--".

(** [fmt.Sprintf(tallyKey, key)] with [tallyKey = "_______#tally-%s"] *)
Definition tallyKey (key : string) : string := "_______#tally-" ++ key.

Definition NewSQLtPlainKV (dsn : string) (autoClose : bool) : SQLtPlainKV :=
  mkKV dsn None None "default" "KeyValueTBL" autoClose false.

(** *** Methods as state transformers

    A method takes the receiver and the world and gives back its results
    with both updated, or panics on a nil pointer and leaves both as they
    were at that point. *)

Inductive outcome (A : Type) : Type :=
| Ret (a : A) (p : SQLtPlainKV) (w : sql.World)
| Panic (p : SQLtPlainKV) (w : sql.World).
Arguments Ret {A} a p w.
Arguments Panic {A} p w.

Definition M (A : Type) : Type := SQLtPlainKV → sql.World → outcome A.

Definition ret {A} (a : A) : M A := fun p w => Ret a p w.

Definition bind {A B} (m : M A) (k : A → M B) : M B :=
  fun p w => match m p w with Ret a p' w' => k a p' w' | Panic p' w' => Panic p' w' end.

Notation "x <~ m ;; k" := (bind m (fun x => k))
  (at level 100, m at next level, right associativity).
Notation "m ;;; k" := (bind m (fun _ => k))
  (at level 100, right associativity).

(** The receiver, read and written. *)
Definition self : M SQLtPlainKV := fun p w => Ret p p w.
Definition update (f : SQLtPlainKV → SQLtPlainKV) : M unit := fun p w => Ret tt (f p) w.

(** A call on the engine that needs no handle. *)
Definition engine {A} (f : sql.World → A * sql.World) : M A :=
  fun p w => let '(a, w') := f w in Ret a p w'.

Definition panic {A} : M A := fun p w => Panic p w.

(** [err != nil] *)
Definition notnil (err : option error) : bool :=
  match err with Some _ => true | None => false end.

(** A call through [p.db]. *)
Definition via_db {A} (f : sql.DB → sql.World → A * sql.World) : M A :=
  fun p w =>
    match db p with
    | None => Panic p w
    | Some h => let '(a, w') := f h w in Ret a p w'
    end.

(** A call through [p.tx]; the handle stays where it is. *)
Definition via_tx {A} (f : sql.Tx → sql.World → A * sql.Tx * sql.World) : M A :=
  fun p w =>
    match tx p with
    | None => Panic p w
    | Some t => let '(a, t', w') := f t w in Ret a (with_tx (Some t') p) w'
    end.

(** [if c { defer d }] ahead of [body]: [d] runs when [body] returns or
    panics, and what [d] returns is dropped. *)
Definition deferring {A B} (c : bool) (d : M B) (body : M A) : M A :=
  if c then
    fun p w =>
      match body p w with
      | Ret a p' w' => (d ;;; ret a) p' w'
      | Panic p' w' =>
          match d p' w' with
          | Ret _ p'' w'' | Panic p'' w'' => Panic p'' w''
          end
      end
  else body.

(** *** Open, Close *)

Definition Open : M (option error) :=
  p <~ self ;;
  match db p with
  | Some _ => ret None
  | None =>
      update (with_inTransaction false) ;;;
      r <~ engine (sql.Open (DSN p)) ;;
      match r with
      | inr e => update (with_db None) ;;; ret (Some e)
      | inl h =>
          update (with_db (Some h)) ;;;
          via_db (fun h => sql.DB_Exec h (fun d => inl (sql.create_table (defTableName p) d)))
      end
  end.

Definition Close : M (option error) :=
  p <~ self ;;
  (match tx p with
   | Some _ => update (with_tx None)
   | None => ret tt
   end) ;;;
  p <~ self ;;
  match db p with
  | None => ret None
  | Some _ =>
      err <~ via_db sql.DB_Close ;;
      match err with
      | Some e => ret (Some e)
      | None => update (with_db None) ;;; ret None
      end
  end.

(** *** get, set *)

(** The query of [get], sent through the transaction or through the pool:
    [p.tx.QueryRow(sqlstr, bucket, key).Scan(&val)] when [p.inTransaction],
    [p.db.QueryRow(sqlstr, bucket, key).Scan(&val)] otherwise. *)
Definition queryRow (bucket key : string) : M (list byte + error) :=
  p <~ self ;;
  let q := sql.select_value (defTableName p) bucket key in
  if inTransaction p
  then via_tx (fun t => sql.Tx_QueryRow_Scan t q)
  else via_db (fun h => sql.DB_QueryRow_Scan h q).

Definition get (bucket key : string) : M (list byte * option error) :=
  err <~ Open ;;
  match err with
  | Some e => ret ([], Some e)
  | None =>
      p <~ self ;;
      deferring (autoClose p) Close (
        let bucket := if String.eqb bucket "" then "default" else bucket in
        r <~ queryRow bucket key ;;
        match r with
        | inr e => if negb (is_ErrNoRows e) then ret ([], Some e) else ret ([], None)
        | inl val => ret (val, None)
        end)
  end.

Definition set (bucket key : string) (value : list byte) : M (option error) :=
  err <~ Open ;;
  match err with
  | Some e => ret (Some e)
  | None =>
      p <~ self ;;
      deferring (autoClose p) Close (
        if (50 <? len_string bucket)%Z then ret (Some ErrBucketIdTooLong)
        else if (300 <? len_string key)%Z then ret (Some ErrKeyTooLong)
        else if (16777215 <? len_bytes value)%Z then ret (Some ErrValueTooLong)
        else
          p <~ self ;;
          let stmt := sql.upsert (defTableName p) bucket key value in
          err <~ (if inTransaction p
                  then via_tx (fun t => sql.Tx_Exec t stmt)
                  else via_db (fun h => sql.DB_Exec h stmt)) ;;
          match err with
          | Some e => ret (Some e)
          | None => ret None
          end)
  end.

(** *** The public operations on records *)

Definition Get (key : string) : M (list byte * option error) :=
  p <~ self ;; get (currBuckt p) key.

Definition GetMime (key : string) : M (string * option error) :=
  r <~ get mimeBuckt key ;;
  let '(val, err) := r in
  if notnil err || (len_bytes val =? 0)%Z
  then ret ("text/html", err)
  else ret (string_of_list_byte val, None).

(** The method [Set]; [Set] alone is a sort of Rocq. *)
Definition Set_ (key : string) (value : list byte) : M (option error) :=
  p <~ self ;;
  (if String.eqb (currBuckt p) "" then update (with_currBuckt "default") else ret tt) ;;;
  p <~ self ;;
  set (currBuckt p) key value.

Definition SetMime (key mime : string) : M (option error) :=
  set mimeBuckt key (list_byte_of_string mime).

Definition SetBucket (bucket : string) : M unit := update (with_currBuckt bucket).

Definition SetTableName (tableName : string) : M unit := update (with_defTableName tableName).

Definition Del (key : string) : M (option error) :=
  err <~ Open ;;
  match err with
  | Some e => ret (Some e)
  | None =>
      p <~ self ;;
      deferring (autoClose p) Close (
        p <~ self ;;
        (if String.eqb (currBuckt p) "" then update (with_currBuckt "default") else ret tt) ;;;
        p <~ self ;;
        let del bucket := sql.delete_row (defTableName p) bucket key in
        if inTransaction p then
          err <~ via_tx (fun t => sql.Tx_Exec t (del (currBuckt p))) ;;
          match err with
          | Some e => ret (Some e)
          | None =>
              err <~ via_tx (fun t => sql.Tx_Exec t (del mimeBuckt)) ;;
              match err with
              | Some e => ret (Some e)
              | None => ret None
              end
          end
        else
          err <~ via_db (fun h => sql.DB_Exec h (del (currBuckt p))) ;;
          match err with
          | Some e => ret (Some e)
          | None =>
              err <~ via_db (fun h => sql.DB_Exec h (del mimeBuckt)) ;;
              match err with
              | Some e => ret (Some e)
              | None => ret None
              end
          end)
  end.

(** The loop over the cursor appends the keys it delivers; [Scan] of a
    text column into a string does not fail. *)
Definition ListKeys (pattern : string) : M (list string * option error) :=
  err <~ Open ;;
  match err with
  | Some e => ret ([], Some e)
  | None =>
      p <~ self ;;
      deferring (autoClose p) Close (
        p <~ self ;;
        (if String.eqb (currBuckt p) "" then update (with_currBuckt "default") else ret tt) ;;;
        p <~ self ;;
        let q := sql.select_keys (defTableName p) (currBuckt p) (pattern ++ "%") in
        r <~ (if inTransaction p
              then via_tx (fun t => sql.Tx_Query t q)
              else via_db (fun h => sql.DB_Query h q)) ;;
        match r with
        | inr e => if negb (is_ErrNoRows e) then ret ([], Some e) else panic
        | inl sqr =>
            match sql.rowsErr sqr with
            | Some e => ret (sql.rowKeys sqr, Some e)
            | None => ret (sql.rowKeys sqr, None)
            end
        end)
  end.

(** *** Counters *)

Definition Tally (key : string) (offset : Z) : M (Z * option error) :=
  let tk := tallyKey key in
  p <~ self ;;
  r <~ get (currBuckt p) tk ;;
  let '(tlly, err) := r in
  match err with
  | Some e => ret ((-1)%Z, Some e)
  | None =>
      err <~ (if (len_bytes tlly =? 0)%Z
              then p <~ self ;;
                   set (currBuckt p) tk (list_byte_of_string (strconv.Itoa offset))
              else ret None) ;;
      match err with
      | Some e => ret ((-1)%Z, Some e)
      | None =>
          let tv := string_of_list_byte tlly in
          let tvv := fst (strconv.Atoi tv) in
          ret (tvv, None)
      end
  end.

Definition TallyIncr (key : string) : M (Z * option error) :=
  r <~ Tally key 0%Z ;;
  let '(tlly, err) := r in
  match err with
  | Some e => ret (tlly, Some e)
  | None =>
      let tk := tallyKey key in
      p <~ self ;;
      err <~ set (currBuckt p) tk (list_byte_of_string (strconv.Itoa (wrap_int (tlly + 1)))) ;;
      match err with
      | Some e => ret (tlly, Some e)
      | None => ret (wrap_int (tlly + 1), None)
      end
  end.

Definition TallyDecr (key : string) : M (Z * option error) :=
  r <~ Tally key 0%Z ;;
  let '(tlly, err) := r in
  match err with
  | Some e => ret (tlly, Some e)
  | None =>
      let tk := tallyKey key in
      p <~ self ;;
      err <~ set (currBuckt p) tk (list_byte_of_string (strconv.Itoa (wrap_int (tlly - 1)))) ;;
      match err with
      | Some e => ret (tlly, Some e)
      | None => ret (wrap_int (tlly - 1), None)
      end
  end.

Definition TallyReset (key : string) : M (option error) :=
  let tk := tallyKey key in
  p <~ self ;;
  set (currBuckt p) tk (list_byte_of_string "0").

(** *** Transactions *)

Definition Begin : M (option error) :=
  r <~ via_db sql.DB_Begin ;;
  match r with
  | inr e => update (with_tx None) ;;; ret (Some e)
  | inl t => update (with_tx (Some t)) ;;; update (with_inTransaction true) ;;; ret None
  end.

Definition Commit : M (option error) :=
  p <~ self ;;
  match tx p with
  | None => ret None
  | Some _ =>
      err <~ via_tx sql.Tx_Commit ;;
      match err with
      | Some e => ret (Some e)
      | None => update (with_inTransaction false) ;;; ret None
      end
  end.

Definition Rollback : M (option error) :=
  p <~ self ;;
  match tx p with
  | None => ret None
  | Some _ =>
      err <~ via_tx sql.Tx_Rollback ;;
      match err with
      | Some e => ret (Some e)
      | None => update (with_inTransaction false) ;;; ret None
      end
  end.

(** ** Observations *)

Definition result {A} (o : outcome A) : option A :=
  match o with Ret a _ _ => Some a | Panic _ _ => None end.

Definition store_of {A} (o : outcome A) : SQLtPlainKV :=
  match o with Ret _ p _ | Panic p _ => p end.

Definition world_of {A} (o : outcome A) : sql.World :=
  match o with Ret _ _ w | Panic _ w => w end.

(** The bucket a statement of the public operations is bound to. *)
Definition bucket_or_default (bucket : string) : string :=
  if String.eqb bucket "" then "default" else bucket.

(** The database the next statement of [p] works on: the working copy of
    the transaction when one is routed to, the file otherwise.  A store
    without a connection opens one first and then works on the file. *)
Definition visible (p : SQLtPlainKV) (w : sql.World) : sql.Database :=
  match db p, inTransaction p, tx p with
  | Some _, true, Some t => sql.txData t
  | _, _, _ => sql.disk w
  end.

(** The rows of the store's table in that database. *)
Definition rows (p : SQLtPlainKV) (w : sql.World) : sql.Table :=
  default ∅ (visible p w !! defTableName p).

(** The next statement of [p] can reach its table: there is no
    connection yet (Open makes one and creates the table), or there is one
    and the table exists where the statement is routed, through a
    transaction that is still running or through the pool. *)
Definition ready (p : SQLtPlainKV) (w : sql.World) : bool :=
  match db p with
  | None => true
  | Some _ =>
      if inTransaction p then
        match tx p with
        | Some t => negb (sql.txDone t) && bool_decide (is_Some (sql.txData t !! defTableName p))
        | None => false
        end
      else bool_decide (is_Some (sql.disk w !! defTableName p))
  end.

(** No fault is pending: every engine call to come goes through. *)
Definition calm (fs : list (option string)) : bool :=
  forallb (fun f => match f with None => true | Some _ => false end) fs.

Definition quiet (w : sql.World) : bool := calm (sql.faults w).

(** The statements of a call run in a transaction that its deferred Close
    then throws away. *)
Definition discards (p : SQLtPlainKV) : bool :=
  autoClose p && inTransaction p && bool_decide (is_Some (db p)).

(** ** Sample states *)

Definition fresh_world : sql.World := sql.mkWorld ∅ [].
Definition fresh_store : SQLtPlainKV := NewSQLtPlainKV "local.dat" false.
Definition closing_store : SQLtPlainKV := NewSQLtPlainKV "local.dat" true.
(** A world where the first statement sent to the file fails. *)
Definition failing_world : sql.World :=
  sql.mkWorld ∅ [None; Some "unable to open database file"].

(** The rows of the default table on file after a run. *)
Definition stored {A} (o : outcome A) (bucket key : string) : option (list byte) :=
  default ∅ (sql.disk (world_of o) !! "KeyValueTBL") !! (bucket, key).

(** Open succeeds: the connection is there or can be made. *)
Definition opens (p : SQLtPlainKV) (w : sql.World) : bool :=
  match result (Open p w) with Some None => true | _ => false end.

(** No statement of [p] goes through a nil transaction handle. *)
Definition nopanic (p : SQLtPlainKV) : bool :=
  match db p with
  | None => true
  | Some _ => negb (inTransaction p) || bool_decide (is_Some (tx p))
  end.



(** A bucket name of 51 bytes. *)
Definition long_bucket : string :=
  "123456789012345678901234567890123456789012345678901".

(** A store with a value and a content type under "k". *)
Definition stocked : outcome (option error) :=
  (Set_ "k" ["v"%byte] ;;; SetMime "k" "application/json") fresh_store fresh_world.


(** The fresh store once opened, and its world with a fault script. *)
Definition opened_store : SQLtPlainKV := store_of (Open fresh_store fresh_world).
Definition opened_world (fs : list (option string)) : sql.World :=
  sql.mkWorld (sql.disk (world_of (Open fresh_store fresh_world))) fs.

(** The fresh store in a transaction just begun. *)
Definition begun : outcome (option error) :=
  (Open ;;; Begin) fresh_store fresh_world.

(** ** Shapes of methods *)

(** Each operation starts with Open and runs it again for nothing on the
    store Open hands over. *)
Definition after_Open {A} (m : M A) (failed : error → A) : Prop :=
  ∀ p w,
    m p w = match Open p w with
            | Ret None p1 w1 => m p1 w1
            | Ret (Some e) p1 w1 => Ret (failed e) p1 w1
            | Panic p1 w1 => Panic p1 w1
            end.

(** A method leaves the current bucket of the receiver as it found it. *)
Definition keeps_bucket {A} (m : M A) : Prop :=
  ∀ p w, currBuckt (store_of (m p w)) = currBuckt p.

(** ** States for sequences of calls *)

(** The store can run its next call to the end: it is usable, the engine
    answers, and the call's statements are not thrown away by a deferred
    Close. *)
Definition usable (p : SQLtPlainKV) (w : sql.World) : bool :=
  ready p w && quiet w && negb (discards p).

(** The rows of the store's table on file. *)
Definition filed (p : SQLtPlainKV) (w : sql.World) : sql.Table :=
  default ∅ (sql.disk w !! defTableName p).

(** The store has a connection, routes its statements to a transaction
    and does not close after each call. *)
Definition in_tx (p : SQLtPlainKV) : bool :=
  bool_decide (is_Some (db p)) && inTransaction p && negb (autoClose p).

(** A method that, run in a transaction, stays in it and leaves the file
    and the table name as they are. *)
Definition isolated {A} (m : M A) : Prop :=
  ∀ p w, in_tx p = true →
         in_tx (store_of (m p w)) = true
         ∧ sql.disk (world_of (m p w)) = sql.disk w
         ∧ defTableName (store_of (m p w)) = defTableName p.

(** ** Counters, as the Tally family reads and writes them *)

(** The values of Go's [int]. *)
Definition int64 (z : Z) : Prop := (- 2 ^ 63 <= z < 2 ^ 63)%Z.

(** The bytes the Tally family writes for a number:
    [[]byte(strconv.Itoa(z))]. *)
Definition number (z : Z) : list byte := list_byte_of_string (strconv.Itoa z).

(** What [Tally] reads for a key: the counter's record in the current
    bucket, empty when there is none. *)
Definition tally (p : SQLtPlainKV) (w : sql.World) (key : string) : list byte :=
  default [] (rows p w !! (bucket_or_default (currBuckt p), tallyKey key)).

(** The counter stands at [n]: its record holds the decimal encoding of
    [n], or it is empty or missing, which [Tally] reads as 0. *)
Definition counts (p : SQLtPlainKV) (w : sql.World) (key : string) (n : Z) : Prop :=
  tally p w key = number n ∨ (tally p w key = [] ∧ n = 0%Z).

(** The loop [for i := 0; i < n; i++ { body }] of the package's tests,
    with what the calls return, in order. *)
Fixpoint times {A} (n : nat) (body : M A) : M (list A) :=
  match n with
  | O => ret []
  | S n' => a <~ body ;; l <~ times n' body ;; ret (a :: l)
  end.

(** A store whose counter "hits" stands at 2. *)
Definition counted : outcome (Z * option error) :=
  (TallyIncr "hits" ;;; TallyIncr "hits") fresh_store fresh_world.

(** A key of 287 bytes: within the 300 of a key, beyond what is left of
    them after the 14 bytes of the counters' prefix. *)
Definition long_key : string := string_of_list_ascii (List.repeat "k"%char 287).

(** ** The connection between calls *)





(** How the store is wired: its connection, whether it has a transaction
    handle, and the two flags. *)
Definition wiring (p : SQLtPlainKV) : option sql.DB * bool * bool * bool :=
  (db p, match tx p with Some _ => true | None => false end,
   inTransaction p, autoClose p).

(** A method that, on a store with a connection that stays open between
    calls, leaves the wiring as it is. *)
Definition keeps_wiring {A} (m : M A) : Prop :=
  ∀ p w, is_Some (db p) → autoClose p = false →
         wiring (store_of (m p w)) = wiring p.

(** ** Proof support *)

(** Unfolds the store, the monad and the engine calls, down to the tests
    the code makes and the statements it sends. *)
Ltac expose :=
  cbv beta iota zeta delta
    [get set queryRow Get GetMime Set_ SetMime SetBucket SetTableName Del
     ListKeys Tally TallyIncr TallyDecr TallyReset Begin Commit Rollback
     Open Close bind ret self update engine panic via_db via_tx deferring
     notnil negb is_ErrNoRows with_db with_tx with_currBuckt with_inTransaction
     with_defTableName DSN db tx currBuckt defTableName autoClose
     inTransaction result store_of world_of
     sql.Open sql.DB_Close sql.DB_Exec sql.DB_QueryRow_Scan sql.DB_Query
     sql.open_rows sql.DB_Begin sql.Tx_Exec sql.Tx_QueryRow_Scan sql.Tx_Query
     sql.Tx_Commit sql.Tx_Rollback sql.next_fault sql.set_disk sql.disk
     sql.faults sql.txDone sql.txData sql.rowKeys sql.rowsErr] in *.

(** ** The statements *)

Section statements.
Context (name bucket key : string) (d : sql.Database).

Lemma select_value_inl v :
  sql.select_value name bucket key d = inl v →
  default ∅ (d !! name) !! (bucket, key) = Some v.
Proof.
  unfold sql.select_value.
  destruct (d !! name) as [t|]; [|done]; simpl.
  destruct (t !! (bucket, key)); naive_solver.
Qed.

Lemma select_value_table t :
  d !! name = Some t →
  sql.select_value name bucket key d
  = match t !! (bucket, key) with Some v => inl v | None => inr ErrNoRows end.
Proof. unfold sql.select_value. by intros ->. Qed.

Lemma create_table_lookup :
  sql.create_table name d !! name = Some (default ∅ (d !! name)).
Proof.
  unfold sql.create_table.
  destruct (d !! name) eqn:E; simpl; [done|]. by rewrite lookup_insert_eq.
Qed.

Lemma upsert_table t value :
  d !! name = Some t →
  sql.upsert name bucket key value d
  = inl (<[name := <[(bucket, key) := value]> t]> d).
Proof. unfold sql.upsert. by intros ->. Qed.

Lemma delete_row_inl d' :
  sql.delete_row name bucket key d = inl d' →
  ∃ t, d' !! name = Some t ∧ t !! (bucket, key) = None
       ∧ ∀ bk, default ∅ (d !! name) !! bk = None → t !! bk = None.
Proof.
  unfold sql.delete_row. destruct (d !! name) as [t|]; [|done].
  intros [= <-]. eexists. rewrite lookup_insert_eq.
  split; [done|]. split; [apply lookup_delete_eq|].
  simpl. intros bk Hbk. rewrite lookup_delete. by case_decide.
Qed.


End statements.



(** ** LIKE against a prefix *)






(** ** A world without pending faults *)

Lemma calm_hd fs : calm fs = true → hd None fs = None.
Proof. destruct fs as [|[m|] fs]; done. Qed.

Lemma calm_tail fs : calm fs = true → calm (tail fs) = true.
Proof. destruct fs as [|[m|] fs]; simpl; done. Qed.

(** Lets the next engine calls through, four deep. *)
Ltac hush H :=
  unfold quiet in H; simpl in H;
  let H1 := fresh in let H2 := fresh in let H3 := fresh in
  pose proof (calm_tail _ H) as H1;
  pose proof (calm_tail _ H1) as H2;
  pose proof (calm_tail _ H2) as H3;
  rewrite ?(calm_hd _ H), ?(calm_hd _ H1), ?(calm_hd _ H2), ?(calm_hd _ H3);
  clear H1 H2 H3.

(** ** The private get *)

(** On a usable store and with the engine answering, [get] returns the
    value of the row it is routed to, or the empty slice when there is no
    such row, and no error. *)
Lemma get_ready (p : SQLtPlainKV) (w : sql.World) (bucket key : string) :
  ready p w = true → quiet w = true →
  result (get bucket key p w)
  = Some (default [] (rows p w !! (bucket_or_default bucket, key)), None).
Proof.
  destruct p as [dsn [h|] [[[] td]|] cb name [] []], w as [d fs];
    unfold ready, rows, visible, bucket_or_default; simpl;
    intros Hr Hq; try done;
    try (apply bool_decide_eq_true in Hr as [tb Htb]);
    expose; hush Hq;
    rewrite ?(select_value_table _ _ _ _ _ (create_table_lookup name d));
    try rewrite (select_value_table _ _ _ _ _ Htb), Htb; simpl;
    destruct (_ !! (_, key)); expose; hush Hq; done.
Qed.

(** ** Open and Close *)

(** Close returns, drops the transaction handle, and leaves the file and
    the settings of the store alone; with the engine answering it also
    drops the connection. *)
Lemma Close_run (p : SQLtPlainKV) (w : sql.World) :
  ∃ e p' w', Close p w = Ret e p' w'
    ∧ tx p' = None ∧ currBuckt p' = currBuckt p
    ∧ defTableName p' = defTableName p ∧ autoClose p' = autoClose p
    ∧ sql.disk w' = sql.disk w
    ∧ (quiet w = true → quiet w' = true ∧ db p' = None).
Proof.
  destruct p as [dsn [h|] [t|] cb name ac it], w as [d fs]; expose;
    try destruct (hd None fs) eqn:E; expose;
    (do 3 eexists; split; [reflexivity|]); simpl;
    (do 5 (split; [done|])); unfold quiet; simpl; intros Hq;
    try (by rewrite (calm_hd _ Hq) in E);
    eauto using calm_tail.
Qed.

(** A deferred Close changes nothing in what the call returns. *)
Lemma result_deferring_Close {A} (c : bool) (body : M A) p w :
  result (deferring c Close body p w) = result (body p w).
Proof.
  unfold deferring. destruct c; [|done].
  destruct (body p w) as [a p' w'|p' w']; simpl.
  - unfold bind. by destruct (Close_run p' w') as (e & p'' & w'' & -> & _).
  - by destruct (Close p' w').
Qed.

(** Open returns; when it succeeds there is a connection, and the rows the
    next statement works on are those it would have worked on before. *)
Lemma Open_run (p : SQLtPlainKV) (w : sql.World) :
  ∃ e p1 w1, Open p w = Ret e p1 w1
    ∧ currBuckt p1 = currBuckt p ∧ defTableName p1 = defTableName p
    ∧ autoClose p1 = autoClose p ∧ tx p1 = tx p
    ∧ (e = None →
       is_Some (db p1) ∧ rows p1 w1 = rows p w
       ∧ discards p1 = discards p
       ∧ (nopanic p = true → nopanic p1 = true)).
Proof.
  destruct p as [dsn [h|] t cb name ac it], w as [d fs]; expose.
  - do 3 eexists; split; [reflexivity|]. by repeat split.
  - destruct (hd None fs); expose; [|destruct (hd None (tail fs)); expose];
      (do 3 eexists; split; [reflexivity|]); repeat split; try done.
    unfold rows, visible; simpl. by rewrite create_table_lookup.
    unfold discards; simpl. by rewrite !andb_false_r.
Qed.

(** Open on a usable store with the engine answering. *)
Lemma Open_ready (p : SQLtPlainKV) (w : sql.World) :
  ready p w = true → quiet w = true →
  ∃ p1 w1, Open p w = Ret None p1 w1
    ∧ is_Some (db p1) ∧ ready p1 w1 = true ∧ quiet w1 = true
    ∧ rows p1 w1 = rows p w ∧ discards p1 = discards p
    ∧ currBuckt p1 = currBuckt p.
Proof.
  intros Hr Hq.
  destruct (Open_run p w) as (e & p1 & w1 & HO & ? & _ & _ & _ & H).
  revert HO H.
  destruct p as [dsn [h|] t cb name ac it], w as [d fs]; expose.
  - intros [= <- <- <-] H. destruct (H eq_refl) as (? & ? & ? & _).
    by do 2 eexists.
  - hush Hq. intros [= <- <- <-] H. destruct (H eq_refl) as (? & ? & ? & _).
    do 2 eexists; split; [reflexivity|]. repeat split; try done.
    + unfold ready; simpl. rewrite create_table_lookup.
      apply bool_decide_eq_true. by eexists.
    + unfold quiet; simpl. eauto using calm_tail.
Qed.

(** Open on a store that has its connection does nothing. *)
Lemma Open_opened (p : SQLtPlainKV) (w : sql.World) :
  is_Some (db p) → Open p w = Ret None p w.
Proof. intros [h Hh]. destruct p; simpl in Hh; subst. done. Qed.

Lemma after_Open_intro {A} (body : M A) (failed : error → A) :
  after_Open
    (err <~ Open ;; match err with Some e => ret (failed e) | None => body end)
    failed.
Proof.
  intros p w. unfold bind at 1.
  destruct (Open_run p w) as (e & p1 & w1 & -> & _ & _ & _ & _ & H).
  destruct e as [e|]; [done|]. destruct (H eq_refl) as (Hdb & _).
  unfold bind. by rewrite (Open_opened _ _ Hdb).
Qed.

Lemma get_after_Open bucket key :
  after_Open (get bucket key) (λ e, ([], Some e)).
Proof. apply after_Open_intro. Qed.

Lemma set_after_Open bucket key value : after_Open (set bucket key value) Some.
Proof. apply after_Open_intro. Qed.

Lemma Del_after_Open key : after_Open (Del key) Some.
Proof. apply after_Open_intro. Qed.

Lemma ListKeys_after_Open pattern :
  after_Open (ListKeys pattern) (λ e, ([], Some e)).
Proof. apply after_Open_intro. Qed.

(** ** The query of get *)

Lemma queryRow_value (p : SQLtPlainKV) (w : sql.World) (bucket key : string) :
  is_Some (db p) → nopanic p = true →
  ∃ r p' w', queryRow bucket key p w = Ret r p' w'
    ∧ ∀ v, r = inl v → rows p w !! (bucket, key) = Some v.
Proof.
  intros [h Hh]. destruct p as [dsn ? [[[] td]|] cb name ac []], w as [d fs];
    simpl in Hh; subst; unfold nopanic, rows, visible; simpl; intros Hnp;
    try done; expose;
    try destruct (hd None fs); expose;
    (do 3 eexists; split; [reflexivity|]); intros v Hv; simplify_eq;
    eauto using select_value_inl.
Qed.

(** Whatever the engine does, the value [get] returns is empty or is the
    value of the row it is routed to. *)
Lemma get_value (p : SQLtPlainKV) (w : sql.World) (bucket key : string) :
  nopanic p = true →
  ∃ v e, result (get bucket key p w) = Some (v, e)
         ∧ (v = [] ∨ rows p w !! (bucket_or_default bucket, key) = Some v).
Proof.
  intros Hnp. unfold get. unfold bind at 1.
  destruct (Open_run p w) as (e & p1 & w1 & -> & _ & _ & _ & _ & H).
  destruct e as [e|]; [by eauto|].
  destruct (H eq_refl) as (Hdb & <- & _ & Hnp1); clear H.
  unfold bind at 1, self at 1. rewrite result_deferring_Close.
  unfold bind at 1. fold (bucket_or_default bucket).
  destruct (queryRow_value p1 w1 (bucket_or_default bucket) key Hdb (Hnp1 Hnp))
    as (r & p' & w' & -> & Hr).
  destruct r as [v|[]]; simpl; eauto 6.
Qed.

(** ** The private set *)

Lemma set_opened_ready (p : SQLtPlainKV) (w : sql.World) (bucket key : string)
    (value : list byte) :
  is_Some (db p) → ready p w = true → quiet w = true →
  (len_string bucket <= 50)%Z → (len_string key <= 300)%Z →
  (len_bytes value <= 16777215)%Z →
  ∃ p' w', set bucket key value p w = Ret None p' w'
           ∧ ready p' w' = true ∧ quiet w' = true
           ∧ (discards p = false → rows p' w' !! (bucket, key) = Some value).
Proof.
  intros [h Hh] Hr Hq Hb Hk Hv.
  apply Z.ltb_ge in Hb, Hk, Hv.
  destruct p as [dsn ? [[[] td]|] cb name [] []], w as [d fs];
    simpl in Hh; subst;
    unfold ready, discards, rows, visible in *; simpl in *; try done;
    apply bool_decide_eq_true in Hr as [tb Htb];
    expose; rewrite Hb, Hk, Hv; expose; hush Hq;
    rewrite (upsert_table _ _ _ _ _ _ Htb);
    expose; hush Hq;
    (do 2 eexists; split; [reflexivity|]); simpl;
    rewrite ?lookup_insert_eq; simpl; rewrite ?lookup_insert_eq;
    unfold quiet; simpl;
    repeat split; eauto using calm_tail; try done;
    try (apply bool_decide_eq_true; eauto).
Qed.

(** On a usable store, with the engine answering and the sizes within
    bounds, [set] succeeds and leaves the store usable; unless its deferred
    Close throws the transaction away, the row is then there for the next
    statement, under the bucket name as given. *)
Lemma set_ready (p : SQLtPlainKV) (w : sql.World) (bucket key : string)
    (value : list byte) :
  ready p w = true → quiet w = true →
  (len_string bucket <= 50)%Z → (len_string key <= 300)%Z →
  (len_bytes value <= 16777215)%Z →
  ∃ p' w', set bucket key value p w = Ret None p' w'
           ∧ ready p' w' = true ∧ quiet w' = true
           ∧ (discards p = false → rows p' w' !! (bucket, key) = Some value).
Proof.
  intros Hr Hq Hb Hk Hv. rewrite set_after_Open.
  destruct (Open_ready p w Hr Hq) as (p1 & w1 & -> & Hdb & Hr1 & Hq1 & _ & <- & _).
  by apply set_opened_ready.
Qed.

(** With the connection there, a size out of bounds is answered before
    any statement is sent: the first bound that fails names the error, the
    file is as it was, and so is the transaction unless the deferred Close
    drops its handle. *)
Lemma set_opened_too_long (p : SQLtPlainKV) (w : sql.World) (bucket key : string)
    (value : list byte) :
  is_Some (db p) →
  (50 < len_string bucket ∨ 300 < len_string key ∨ 16777215 < len_bytes value)%Z →
  let o := set bucket key value p w in
  sql.disk (world_of o) = sql.disk w
  ∧ tx (store_of o) = (if autoClose p then None else tx p)
  ∧ ((50 < len_string bucket)%Z → result o = Some (Some ErrBucketIdTooLong))
  ∧ ((len_string bucket <= 50)%Z → (300 < len_string key)%Z →
     result o = Some (Some ErrKeyTooLong))
  ∧ ((len_string bucket <= 50)%Z → (len_string key <= 300)%Z →
     result o = Some (Some ErrValueTooLong)).
Proof.
  intros Hdb Hover o.
  assert (Ho : o = set bucket key value p w) by done. clearbody o.
  unfold set in Ho. unfold bind at 1 in Ho. rewrite (Open_opened _ _ Hdb) in Ho.
  unfold bind at 1, self at 1, deferring in Ho.
  destruct (Z.ltb_spec 50 (len_string bucket)) as [Hb|Hb];
    [|destruct (Z.ltb_spec 300 (len_string key)) as [Hk|Hk];
      [|destruct (Z.ltb_spec 16777215 (len_bytes value)) as [Hv|Hv]; [|lia]]].
  all: destruct (autoClose p); unfold ret at 1 in Ho; simpl in Ho;
    [unfold bind in Ho;
     destruct (Close_run p w) as (e & p' & w' & HC & ? & _ & _ & _ & ? & _);
     rewrite HC in Ho|];
    subst o; simpl; repeat split; try done; intros; lia.
Qed.

(** ** Del *)

Lemma bucket_or_default_nonempty (b : string) : bucket_or_default b ≠ "".
Proof. unfold bucket_or_default. by destruct (String.eqb_spec b ""). Qed.

Lemma bucket_or_default_id (b : string) : b ≠ "" → bucket_or_default b = b.
Proof. unfold bucket_or_default. by destruct (String.eqb_spec b ""). Qed.

Lemma Del_opened_success (p : SQLtPlainKV) (w : sql.World) (key : string) p1 w1 :
  is_Some (db p) → discards p = false →
  Del key p w = Ret None p1 w1 →
  nopanic p1 = true ∧ ready p1 w1 = true
  ∧ currBuckt p1 = bucket_or_default (currBuckt p)
  ∧ rows p1 w1 !! (currBuckt p1, key) = None
  ∧ rows p1 w1 !! (mimeBuckt, key) = None.
Proof.
  intros [h Hh] Hd HD.
  destruct p as [dsn ? [[[] td]|] cb name [] []], w as [d fs];
    simpl in Hh; subst; unfold discards in Hd; simpl in Hd; try done;
    revert HD; expose; unfold bucket_or_default;
    repeat (case_match; simplify_eq; expose; try done);
    intros; simplify_eq;
    unfold nopanic, ready, rows, visible; simpl;
    repeat match goal with
      | H : sql.delete_row _ _ _ _ = inl _ |- _ =>
          apply delete_row_inl in H as (? & ? & ? & ?)
      end;
    simplify_eq; simplify_option_eq; repeat split; eauto;
    try (apply bool_decide_eq_true; eauto).
Qed.

(** ** Running one call after another *)

Lemma result_Some {A} (o : outcome A) (a : A) :
  result o = Some a → ∃ p w, o = Ret a p w.
Proof. destruct o; simpl; [|done]. intros [= ->]. eauto. Qed.

Lemma result_bind_ret {A B} (m : M A) (f : A → B) p w :
  result ((a <~ m ;; ret (f a)) p w) = f <$> result (m p w).
Proof. unfold bind. by destruct (m p w). Qed.

(** ** ListKeys *)



(** ** Size bounds of set *)

(** C2, as amended. When the connection is there or Open makes it, a
    [set] with a bucket over 50 bytes, a key over 300 bytes or a value over
    16777215 bytes returns the sentinel of the first bound that fails, in
    that order, and sends no statement: the file is what Open left and the
    transaction is untouched, apart from the handle a deferred Close
    drops.  The bounds are tested after Open, not before. *)
Theorem set_oversized (p : SQLtPlainKV) (w : sql.World) (bucket key : string)
    (value : list byte) :
  opens p w = true →
  (50 < len_string bucket ∨ 300 < len_string key ∨ 16777215 < len_bytes value)%Z →
  let o := set bucket key value p w in
  sql.disk (world_of o) = sql.disk (world_of (Open p w))
  ∧ tx (store_of o) = (if autoClose p then None else tx p)
  ∧ ((50 < len_string bucket)%Z → result o = Some (Some ErrBucketIdTooLong))
  ∧ ((len_string bucket <= 50)%Z → (300 < len_string key)%Z →
     result o = Some (Some ErrKeyTooLong))
  ∧ ((len_string bucket <= 50)%Z → (len_string key <= 300)%Z →
     result o = Some (Some ErrValueTooLong)).
Proof.
  unfold opens. intros HO Hover. rewrite set_after_Open.
  destruct (Open_run p w) as (e & p1 & w1 & HO1 & _ & _ & <- & <- & H).
  rewrite HO1 in *. simpl in HO. destruct e as [e|]; [done|].
  destruct (H eq_refl) as (Hdb & _). simpl.
  by apply set_opened_too_long.
Qed.

Lemma set_oversized_witness :
  result (set long_bucket "k" [] fresh_store fresh_world)
  = Some (Some ErrBucketIdTooLong).
Proof.
  apply (set_oversized fresh_store fresh_world long_bucket "k" []);
    [reflexivity | left; reflexivity | reflexivity].
Defined.

(** C2, as stated, fails: on a store that is not connected [set] opens the
    connection and creates the table before it looks at the sizes, and
    when Open fails the caller gets the engine's error, not the sentinel. *)
Lemma set_checks_sizes_after_Open :
  (50 < len_string long_bucket)%Z
  ∧ result (set long_bucket "k" [] fresh_store failing_world)
    = Some (Some (EngineError "unable to open database file"))
  ∧ sql.disk fresh_world !! "KeyValueTBL" = None
  ∧ sql.disk (world_of (set long_bucket "k" [] fresh_store fresh_world))
      !! "KeyValueTBL" = Some ∅.
Proof. vm_compute. done. Qed.

(** ** Round trip *)

(** C5, as amended. For a bucket that is not empty, with bucket, key and
    value within the bounds, on a usable store with the engine answering,
    and unless the store closes after each call while a transaction is
    running, [set] and then [get] return no error and the value as set. *)
Theorem set_then_get (p : SQLtPlainKV) (w : sql.World) (bucket key : string)
    (value : list byte) :
  ready p w = true → quiet w = true → discards p = false →
  bucket ≠ "" →
  (len_string bucket <= 50)%Z → (len_string key <= 300)%Z →
  (len_bytes value <= 16777215)%Z →
  result ((err <~ set bucket key value ;; r <~ get bucket key ;; ret (err, r)) p w)
  = Some (None, (value, None)).
Proof.
  intros Hr Hq Hd Hne Hb Hk Hv. unfold bind at 1.
  destruct (set_ready p w bucket key value Hr Hq Hb Hk Hv)
    as (p' & w' & -> & Hr' & Hq' & Hrow).
  rewrite result_bind_ret, (get_ready _ _ _ _ Hr' Hq').
  by rewrite (bucket_or_default_id _ Hne), (Hrow Hd).
Qed.

Lemma set_then_get_witness :
  result ((err <~ set "b" "k" ["v"%byte] ;; r <~ get "b" "k" ;; ret (err, r))
            fresh_store fresh_world)
  = Some (None, (["v"%byte], None)).
Proof.
  apply (set_then_get fresh_store fresh_world "b" "k" ["v"%byte]);
    [reflexivity | reflexivity | reflexivity | discriminate
    | vm_compute; discriminate | vm_compute; discriminate
    | vm_compute; discriminate].
Defined.

(** C5, as stated, fails: a store made with [autoClose] closes after the
    [set] that ran in the transaction, the handle is dropped with what it
    held, and the [get] that follows finds no row. *)
Lemma set_then_get_loses_value :
  (len_string "b" <= 50 ∧ len_string "k" <= 300 ∧ len_bytes ["v"%byte] <= 16777215)%Z
  ∧ result ((Open ;;; Begin ;;;
             err <~ set "b" "k" ["v"%byte] ;; r <~ get "b" "k" ;; ret (err, r))
              closing_store fresh_world)
    = Some (None, ([], None)).
Proof. vm_compute. repeat split; discriminate. Qed.

(** ** Del *)

(** C6, as amended. After a successful [Del], and unless the store closes
    after each call while a transaction is running, [Get] of the key
    returns the empty slice and [GetMime] returns "text/html", whatever
    the engine does next; with the engine answering, both without error. *)
Theorem Del_then_Get_GetMime (p : SQLtPlainKV) (w : sql.World) (key : string)
    (p1 : SQLtPlainKV) (w1 : sql.World) :
  Del key p w = Ret None p1 w1 → discards p = false →
  (∃ e, result (Get key p1 w1) = Some ([], e))
  ∧ (∃ e, result (GetMime key p1 w1) = Some ("text/html", e))
  ∧ (quiet w1 = true →
     result (Get key p1 w1) = Some ([], None)
     ∧ result (GetMime key p1 w1) = Some ("text/html", None)).
Proof.
  rewrite Del_after_Open.
  destruct (Open_run p w) as (e & p0 & w0 & -> & _ & _ & _ & _ & H).
  destruct e as [e|]; [done|]. destruct (H eq_refl) as (Hdb & _ & <- & _).
  intros HD Hd.
  destruct (Del_opened_success _ _ _ _ _ Hdb Hd HD) as (Hnp & Hr & Hcb & Hrow & Hmime).
  assert (Hb : bucket_or_default (currBuckt p1) = currBuckt p1).
  { apply bucket_or_default_id. rewrite Hcb. apply bucket_or_default_nonempty. }
  assert (HG : ∀ g, Get key p1 w1 = g → g = get (currBuckt p1) key p1 w1) by by intros ? <-.
  rewrite (HG _ eq_refl). clear HG.
  assert (HM : ∀ v e pm wm, get mimeBuckt key p1 w1 = Ret (v, e) pm wm → v = [] →
               result (GetMime key p1 w1) = Some ("text/html", e)).
  { intros v e pm wm Hg ->. unfold GetMime, bind. rewrite Hg. simpl.
    by rewrite orb_true_r. }
  split; [|split].
  - destruct (get_value p1 w1 (currBuckt p1) key Hnp) as (v & e & Hg & [->|Hv]);
      [eauto|]. rewrite Hb, Hrow in Hv. done.
  - destruct (get_value p1 w1 mimeBuckt key Hnp) as (v & e & Hg & Hv).
    apply result_Some in Hg as (pm & wm & Hg). exists e.
    apply (HM _ _ _ _ Hg). destruct Hv as [->|Hv]; [done|].
    change (bucket_or_default mimeBuckt) with mimeBuckt in Hv.
    rewrite Hmime in Hv. done.
  - intros Hq. split.
    + by rewrite (get_ready _ _ _ _ Hr Hq), Hb, Hrow.
    + pose proof (get_ready _ _ mimeBuckt key Hr Hq) as Hg.
      change (bucket_or_default mimeBuckt) with mimeBuckt in Hg.
      rewrite Hmime in Hg. apply result_Some in Hg as (pm & wm & Hg).
      by apply (HM _ _ _ _ Hg).
Qed.

Lemma Del_then_Get_GetMime_witness :
  let o := Del "k" (store_of stocked) (world_of stocked) in
  result (Get "k" (store_of stocked) (world_of stocked)) = Some (["v"%byte], None)
  ∧ result (Get "k" (store_of o) (world_of o)) = Some ([], None)
  ∧ result (GetMime "k" (store_of o) (world_of o)) = Some ("text/html", None).
Proof.
  split; [reflexivity|].
  apply (Del_then_Get_GetMime (store_of stocked) (world_of stocked) "k");
    reflexivity.
Defined.

(** C6, as stated, fails: a store made with [autoClose] closes after the
    [Del] that ran in the transaction, the two deletions are dropped with
    the handle, and the value and its content type are still there. *)
Lemma Del_loses_deletions :
  result ((Set_ "k" ["v"%byte] ;;; SetMime "k" "application/json" ;;;
           Open ;;; Begin ;;;
           err <~ Del "k" ;; v <~ Get "k" ;; m <~ GetMime "k" ;; ret (err, v, m))
            closing_store fresh_world)
  = Some (None, (["v"%byte], None), ("application/json", None)).
Proof. vm_compute. done. Qed.

(** ** ListKeys *)




(** ** get on a missing row and on engine errors *)





(** ** GetMime on an engine error *)

(** C10. When the lookup of [GetMime] fails, [GetMime] returns
    "text/html" with the error of the lookup; the string is the one it
    returns without error when the key has no content type. *)
Theorem GetMime_on_error (p : SQLtPlainKV) (w : sql.World) (key : string) :
  (∀ e, snd <$> result (get mimeBuckt key p w) = Some (Some e) →
        result (GetMime key p w) = Some ("text/html", Some e))
  ∧ (ready p w = true → quiet w = true → rows p w !! (mimeBuckt, key) = None →
     result (GetMime key p w) = Some ("text/html", None)).
Proof.
  split.
  - intros e He. unfold GetMime, bind.
    destruct (get mimeBuckt key p w) as [[v e'] p' w'|]; simpl in *; [|done].
    by injection He as ->.
  - intros Hr Hq Hrow. pose proof (get_ready _ _ mimeBuckt key Hr Hq) as Hg.
    change (bucket_or_default mimeBuckt) with mimeBuckt in Hg.
    rewrite Hrow in Hg. apply result_Some in Hg as (p' & w' & Hg).
    unfold GetMime, bind. by rewrite Hg.
Qed.

Lemma GetMime_on_error_witness :
  result (GetMime "k" opened_store (opened_world [Some "disk I/O error"]))
  = Some ("text/html", Some (EngineError "disk I/O error"))
  ∧ result (GetMime "k" opened_store (opened_world []))
    = Some ("text/html", None).
Proof.
  split.
  - destruct (GetMime_on_error opened_store (opened_world [Some "disk I/O error"])
                "k") as (H & _).
    apply H; reflexivity.
  - destruct (GetMime_on_error opened_store (opened_world []) "k") as (_ & H).
    apply H; reflexivity.
Defined.

(** ** The current bucket field *)

Section keeps_bucket.
Context {A B : Type}.

Lemma keeps_ret (a : A) : keeps_bucket (ret a).
Proof. done. Qed.

Lemma keeps_panic : keeps_bucket (@panic A).
Proof. done. Qed.

Lemma keeps_bind (m : M A) (k : A → M B) :
  keeps_bucket m → (∀ a, keeps_bucket (k a)) → keeps_bucket (bind m k).
Proof.
  intros Hm Hk p w. unfold bind. specialize (Hm p w).
  destruct (m p w) as [a p' w'|p' w']; simpl in *; [|done].
  by rewrite Hk.
Qed.

Lemma keeps_engine (f : sql.World → A * sql.World) : keeps_bucket (engine f).
Proof. intros p w. unfold engine. by destruct (f w). Qed.

Lemma keeps_via_db (f : sql.DB → sql.World → A * sql.World) :
  keeps_bucket (via_db f).
Proof. intros p w. unfold via_db. destruct (db p); [|done]. by destruct (f _ w). Qed.

Lemma keeps_via_tx (f : sql.Tx → sql.World → A * sql.Tx * sql.World) :
  keeps_bucket (via_tx f).
Proof.
  intros p w. unfold via_tx. destruct (tx p); [|done].
  by destruct (f _ w) as [[? ?] ?].
Qed.

Lemma keeps_deferring (c : bool) (d : M B) (body : M A) :
  keeps_bucket d → keeps_bucket body → keeps_bucket (deferring c d body).
Proof.
  intros Hd Hb p w. unfold deferring. destruct c; [|done].
  specialize (Hb p w). destruct (body p w) as [a p' w'|p' w']; simpl in *.
  - unfold bind. specialize (Hd p' w').
    destruct (d p' w'); simpl in *; congruence.
  - specialize (Hd p' w'). destruct (d p' w'); simpl in *; congruence.
Qed.

End keeps_bucket.

Lemma keeps_self : keeps_bucket self.
Proof. done. Qed.

Lemma keeps_update (f : SQLtPlainKV → SQLtPlainKV) :
  (∀ p, currBuckt (f p) = currBuckt p) → keeps_bucket (update f).
Proof. intros Hf p w. apply Hf. Qed.

(** Goes through a method statement by statement. *)
Ltac keeping :=
  repeat first
    [ apply keeps_ret | apply keeps_panic | apply keeps_self
    | apply keeps_engine | apply keeps_via_db | apply keeps_via_tx
    | apply keeps_update; done
    | apply keeps_deferring
    | apply keeps_bind; [|intros ?]
    | assumption
    | match goal with
      | |- keeps_bucket (match ?x with _ => _ end) => destruct x
      | |- keeps_bucket (let _ := _ in _) => cbv zeta
      end ].

Lemma keeps_Open : keeps_bucket Open.
Proof. unfold Open. keeping. Qed.

Lemma keeps_Close : keeps_bucket Close.
Proof. unfold Close. keeping. Qed.

Lemma keeps_get bucket key : keeps_bucket (get bucket key).
Proof.
  pose proof keeps_Open. pose proof keeps_Close. unfold get, queryRow. keeping.
Qed.

Lemma keeps_set bucket key value : keeps_bucket (set bucket key value).
Proof. pose proof keeps_Open. pose proof keeps_Close. unfold set. keeping. Qed.

Lemma keeps_Tally key offset : keeps_bucket (Tally key offset).
Proof.
  pose proof keeps_get. pose proof keeps_set. unfold Tally.
  keeping; auto.
Qed.

Lemma keeps_TallyIncr key : keeps_bucket (TallyIncr key).
Proof.
  pose proof keeps_Tally. pose proof keeps_set. unfold TallyIncr. keeping; auto.
Qed.

Lemma keeps_TallyDecr key : keeps_bucket (TallyDecr key).
Proof.
  pose proof keeps_Tally. pose proof keeps_set. unfold TallyDecr. keeping; auto.
Qed.

Lemma keeps_TallyReset key : keeps_bucket (TallyReset key).
Proof. pose proof keeps_set. unfold TallyReset. keeping; auto. Qed.

Lemma bucket_deferring {A B} (c : bool) (d : M B) (body : M A) p w :
  keeps_bucket d →
  currBuckt (store_of (deferring c d body p w)) = currBuckt (store_of (body p w)).
Proof.
  intros Hd. unfold deferring. destruct c; [|done].
  destruct (body p w) as [a p' w'|p' w']; simpl.
  - unfold bind. specialize (Hd p' w'). by destruct (d p' w').
  - specialize (Hd p' w'). by destruct (d p' w').
Qed.

(** Rewrites the bucket after a run of statements that keep it. *)
Ltac kept :=
  match goal with
  | |- currBuckt (store_of (?m ?q ?w)) = _ =>
      let H := fresh in
      assert (H : keeps_bucket m)
        by (pose proof keeps_Close; keeping; auto);
      rewrite (H q w); clear H
  end.

Lemma Del_opened_bucket (p : SQLtPlainKV) (w : sql.World) (key : string) :
  is_Some (db p) →
  currBuckt (store_of (Del key p w)) = bucket_or_default (currBuckt p).
Proof.
  intros Hdb. unfold Del. unfold bind at 1. rewrite (Open_opened _ _ Hdb).
  unfold bind at 1, self at 1.
  rewrite bucket_deferring by apply keeps_Close.
  unfold bind at 1, self at 1. unfold bucket_or_default.
  destruct (String.eqb_spec (currBuckt p) "") as [He|He]; unfold bind at 1;
    [unfold update at 1|unfold ret at 1]; kept; done.
Qed.

Lemma ListKeys_opened_bucket (p : SQLtPlainKV) (w : sql.World) (pattern : string) :
  is_Some (db p) →
  currBuckt (store_of (ListKeys pattern p w)) = bucket_or_default (currBuckt p).
Proof.
  intros Hdb. unfold ListKeys. unfold bind at 1. rewrite (Open_opened _ _ Hdb).
  unfold bind at 1, self at 1.
  rewrite bucket_deferring by apply keeps_Close.
  unfold bind at 1, self at 1. unfold bucket_or_default.
  destruct (String.eqb_spec (currBuckt p) "") as [He|He]; unfold bind at 1;
    [unfold update at 1|unfold ret at 1]; kept; done.
Qed.

(** C9, as amended. With the current bucket empty, [Set] always leaves
    "default" in the field; [Del] and [ListKeys] do so when their Open step
    succeeds and leave the field empty when it fails; the counter
    operations and the private [set] leave it empty. *)
Theorem empty_bucket_field (p : SQLtPlainKV) (w : sql.World)
    (bucket key pattern : string) (value : list byte) (offset : Z) :
  currBuckt p = "" →
  currBuckt (store_of (Set_ key value p w)) = "default"
  ∧ currBuckt (store_of (Del key p w)) = (if opens p w then "default" else "")
  ∧ currBuckt (store_of (ListKeys pattern p w))
    = (if opens p w then "default" else "")
  ∧ currBuckt (store_of (Tally key offset p w)) = ""
  ∧ currBuckt (store_of (TallyIncr key p w)) = ""
  ∧ currBuckt (store_of (TallyDecr key p w)) = ""
  ∧ currBuckt (store_of (TallyReset key p w)) = ""
  ∧ currBuckt (store_of (set bucket key value p w)) = "".
Proof.
  intros Hcb.
  assert (HO : ∀ {A} (m : M A) failed, after_Open m failed →
            (∀ q v, is_Some (db q) →
                    currBuckt (store_of (m q v)) = bucket_or_default (currBuckt q)) →
            currBuckt (store_of (m p w)) = (if opens p w then "default" else "")).
  { intros A m failed Hm Hq. rewrite Hm. unfold opens.
    destruct (Open_run p w) as (e & p1 & w1 & -> & Hcb1 & _ & _ & _ & H).
    destruct e as [e|]; simpl; [congruence|].
    destruct (H eq_refl) as (Hdb & _). by rewrite (Hq _ _ Hdb), Hcb1, Hcb. }
  split; [|split; [|split]].
  - unfold Set_. unfold bind at 1, self at 1. rewrite Hcb. simpl String.eqb.
    unfold bind at 1, update at 1. unfold bind at 1, self at 1.
    by rewrite keeps_set.
  - apply (HO _ _ _ (Del_after_Open key)). intros. by apply Del_opened_bucket.
  - apply (HO _ _ _ (ListKeys_after_Open pattern)). intros.
    by apply ListKeys_opened_bucket.
  - by rewrite keeps_Tally, keeps_TallyIncr, keeps_TallyDecr, keeps_TallyReset,
      keeps_set.
Qed.

Lemma empty_bucket_field_witness :
  let p := with_currBuckt "" fresh_store in
  currBuckt (store_of (Set_ "k" [] p fresh_world)) = "default"
  ∧ currBuckt (store_of (Del "k" p fresh_world)) = "default"
  ∧ currBuckt (store_of (ListKeys "k" p fresh_world)) = "default"
  ∧ currBuckt (store_of (Tally "k" 5 p fresh_world)) = ""
  ∧ currBuckt (store_of (TallyIncr "k" p fresh_world)) = ""
  ∧ currBuckt (store_of (TallyDecr "k" p fresh_world)) = ""
  ∧ currBuckt (store_of (TallyReset "k" p fresh_world)) = ""
  ∧ currBuckt (store_of (set "" "k" [] p fresh_world)) = "".
Proof.
  exact (empty_bucket_field (with_currBuckt "" fresh_store) fresh_world
           "" "k" "k" [] 5 eq_refl).
Defined.

(** C9, as stated, fails: [Del] and [ListKeys] return the error of a
    failed Open before they look at the current bucket, which stays
    empty. *)
Lemma Del_failed_Open_keeps_empty_bucket :
  let p := with_currBuckt "" fresh_store in
  currBuckt p = ""
  ∧ result (Del "k" p failing_world)
    = Some (Some (EngineError "unable to open database file"))
  ∧ currBuckt (store_of (Del "k" p failing_world)) = ""
  ∧ currBuckt (store_of (ListKeys "k" p failing_world)) = "".
Proof. vm_compute. done. Qed.

(** ** The counter operations on a fresh key *)

(** Whenever [Tally] finds no counter and succeeds, it returns 0, whatever
    the offset: the value it converts is the slice read before the write. *)
Lemma Tally_missing_returns_zero (p : SQLtPlainKV) (w : sql.World) (key : string)
    (offset tvv : Z) :
  fst <$> result (get (currBuckt p) (tallyKey key) p w) = Some [] →
  result (Tally key offset p w) = Some (tvv, None) → tvv = 0%Z.
Proof.
  unfold Tally. unfold bind at 1, self at 1. unfold bind at 1.
  destruct (get (currBuckt p) (tallyKey key) p w) as [[tlly err] p' w'|]; [|done].
  simpl. intros [= ->]. destruct err as [e|]; [done|]. simpl.
  unfold bind at 1. unfold bind at 1, self at 1.
  destruct (set _ _ _ p' w') as [[e|] p'' w''|]; simpl; congruence.
Qed.

(** C1. Code defect: on a fresh key [Tally "k" 5] writes the decimal
    encoding of 5 to the counter record and then converts the empty slice
    it read before the write, so it returns 0 where the offset 5 is
    promised; the [TallyIncr] that follows reads the record and returns 6. *)
Theorem Tally_fresh_key_returns_zero :
  let o := (Open ;;; Tally "k" 5) fresh_store fresh_world in
  result o = Some (0%Z, None)
  ∧ stored o "default" (tallyKey "k") = Some (list_byte_of_string "5")
  ∧ result ((Open ;;; Tally "k" 5 ;;; TallyIncr "k") fresh_store fresh_world)
    = Some (6%Z, None).
Proof. vm_compute. done. Qed.

(** ** Commit and Rollback without a running transaction *)

(** With a nil handle both return success and change nothing. *)
Lemma Commit_Rollback_nil_handle (p : SQLtPlainKV) (w : sql.World) :
  tx p = None → Commit p w = Ret None p w ∧ Rollback p w = Ret None p w.
Proof. intros H. unfold Commit, Rollback, bind, self. by rewrite H. Qed.

(** With the handle of a finished transaction both return [ErrTxDone] and
    change nothing. *)
Lemma Commit_Rollback_finished_handle (p : SQLtPlainKV) (w : sql.World) t :
  tx p = Some t → sql.txDone t = true →
  Commit p w = Ret (Some ErrTxDone) p w ∧ Rollback p w = Ret (Some ErrTxDone) p w.
Proof.
  destruct p, t as [done data]; simpl. intros -> ->. split; reflexivity.
Qed.

(** A successful Commit or Rollback leaves its finished handle in [p.tx]
    and clears [inTransaction]. *)
Lemma Commit_Rollback_keep_handle (p p' : SQLtPlainKV) (w w' : sql.World) t :
  tx p = Some t →
  Commit p w = Ret None p' w' ∨ Rollback p w = Ret None p' w' →
  inTransaction p' = false ∧ ∃ t', tx p' = Some t' ∧ sql.txDone t' = true.
Proof.
  destruct p as [dsn h ? cb name ac it], t as [[] data], w as [d fs];
    simpl; intros ->; expose; (intros [H|H]; [|]);
    try done; destruct (hd None fs); simplify_eq; eauto.
Qed.

(** C3, as amended. With a nil transaction handle, as before any Begin
    and after Close, Commit and Rollback return success and change
    nothing.  A successful Commit or Rollback leaves its finished handle
    in the store, and a Commit or Rollback that follows returns
    [ErrTxDone] and changes nothing. *)
Theorem Commit_Rollback_inactive (p : SQLtPlainKV) (w : sql.World) :
  (tx p = None → Commit p w = Ret None p w ∧ Rollback p w = Ret None p w)
  ∧ (∀ p' w',
       is_Some (tx p) →
       Commit p w = Ret None p' w' ∨ Rollback p w = Ret None p' w' →
       inTransaction p' = false
       ∧ ∀ v, Commit p' v = Ret (Some ErrTxDone) p' v
              ∧ Rollback p' v = Ret (Some ErrTxDone) p' v).
Proof.
  split; [apply Commit_Rollback_nil_handle|].
  intros p' w' [t Ht] H.
  destruct (Commit_Rollback_keep_handle _ _ _ _ _ Ht H) as (Hin & t' & Ht' & Hd).
  split; [done|]. intros v. by apply (Commit_Rollback_finished_handle _ _ t').
Qed.

Lemma Commit_Rollback_inactive_witness :
  Commit fresh_store fresh_world = Ret None fresh_store fresh_world
  ∧ Rollback fresh_store fresh_world = Ret None fresh_store fresh_world
  ∧ result (Commit (store_of begun) (world_of begun)) = Some None
  ∧ let o := Commit (store_of begun) (world_of begun) in
    result (Rollback (store_of o) (world_of o)) = Some (Some ErrTxDone).
Proof.
  destruct (Commit_Rollback_inactive fresh_store fresh_world) as (H0 & _).
  destruct (H0 eq_refl) as (HC & HR).
  split; [exact HC|]. split; [exact HR|]. split; [reflexivity|].
  destruct (Commit_Rollback_inactive (store_of begun) (world_of begun)) as (_ & H1).
  intros o.
  destruct (H1 (store_of o) (world_of o)) as (_ & H2);
    [by eexists | left; reflexivity |].
  destruct (H2 (world_of o)) as (_ & ->). reflexivity.
Defined.

(** C3, as stated, fails: a successful Commit or Rollback clears
    [inTransaction] and keeps the finished handle in [p.tx], so the next
    Commit or Rollback passes the nil test and gets [ErrTxDone] from the
    handle, not the silent success of a store without a transaction. *)
Lemma Commit_after_Commit_fails :
  let twice (first second : M (option error)) :=
    (Open ;;; Begin ;;; e1 <~ first ;; p <~ self ;; e2 <~ second ;;
     ret (e1, inTransaction p, e2)) fresh_store fresh_world in
  result (twice Commit Commit) = Some (None, false, Some ErrTxDone)
  ∧ result (twice Commit Rollback) = Some (None, false, Some ErrTxDone)
  ∧ result (twice Rollback Commit) = Some (None, false, Some ErrTxDone)
  ∧ result (twice Rollback Rollback) = Some (None, false, Some ErrTxDone).
Proof. vm_compute. done. Qed.

(** ** The empty bucket name *)

(** C4. Code defect: with the current bucket set to the empty string the
    counter operations read bucket "default" (the private [get]
    normalizes) and write bucket "" (the private [set] does not), so the
    counter never leaves its first value. *)
Theorem Tally_family_writes_empty_bucket :
  let o := (SetBucket "" ;;; TallyReset "k") fresh_store fresh_world in
  result o = Some None
  ∧ stored o "" (tallyKey "k") = Some (list_byte_of_string "0")
  ∧ stored o "default" (tallyKey "k") = None
  ∧ result ((SetBucket "" ;;; a <~ TallyIncr "k" ;; b <~ TallyIncr "k" ;;
             c <~ TallyDecr "k" ;; ret (fst a, fst b, fst c))
              fresh_store fresh_world) = Some (1%Z, 1%Z, (-1)%Z).
Proof. vm_compute. done. Qed.

(** The same gap between the private [set] and [get] on the empty name:
    the value goes to bucket "" and the lookup to bucket "default". *)
Lemma set_then_get_empty_bucket :
  result ((err <~ set "" "k" ["v"%byte] ;; r <~ get "" "k" ;; ret (err, r))
            fresh_store fresh_world)
  = Some (None, ([], None)).
Proof. vm_compute. done. Qed.

(** ** Calls on a store that can run them *)

Lemma usable_unfold p w :
  usable p w = true → ready p w = true ∧ quiet w = true ∧ discards p = false.
Proof.
  unfold usable. intros [[? ?]%andb_prop ?%negb_true_iff]%andb_prop. done.
Qed.

Lemma usable_fold p w :
  ready p w = true → quiet w = true → discards p = false → usable p w = true.
Proof. unfold usable. by intros -> -> ->. Qed.

Lemma usable_with_currBuckt b p w :
  usable (with_currBuckt b p) w = usable p w.
Proof. by destruct p. Qed.

Lemma rows_with_currBuckt b p w : rows (with_currBuckt b p) w = rows p w.
Proof. by destruct p. Qed.

Lemma Open_usable (p : SQLtPlainKV) (w : sql.World) :
  usable p w = true →
  ∃ p1 w1, Open p w = Ret None p1 w1
    ∧ is_Some (db p1) ∧ usable p1 w1 = true
    ∧ rows p1 w1 = rows p w ∧ currBuckt p1 = currBuckt p.
Proof.
  intros (Hr & Hq & Hd)%usable_unfold.
  destruct (Open_ready p w Hr Hq) as (p1 & w1 & HO & ? & ? & ? & ? & Hd1 & ?).
  exists p1, w1. repeat split; try done. apply usable_fold; congruence.
Qed.

Lemma get_opened_usable (p : SQLtPlainKV) (w : sql.World) (bucket key : string) :
  is_Some (db p) → usable p w = true →
  ∃ p' w',
    get bucket key p w
    = Ret (default [] (rows p w !! (bucket_or_default bucket, key)), None) p' w'
    ∧ usable p' w' = true ∧ rows p' w' = rows p w
    ∧ currBuckt p' = currBuckt p.
Proof.
  intros [h Hh] (Hr & Hq & Hd)%usable_unfold.
  destruct p as [dsn ? [[[] td]|] cb name [] []], w as [d fs];
    simpl in Hh; subst;
    unfold usable, ready, discards, rows, visible, bucket_or_default in *;
    simpl in *; try done;
    apply bool_decide_eq_true in Hr as [tb Htb];
    expose; hush Hq;
    rewrite (select_value_table _ _ _ _ _ Htb), Htb; simpl;
    destruct (_ !! (_, key)); expose; hush Hq;
    (do 2 eexists; split; [reflexivity|]); simpl; rewrite ?Htb;
    unfold quiet; simpl;
    repeat split; rewrite ?andb_true_r; try done;
    repeat (apply andb_true_intro; split);
    eauto using calm_tail; try (apply bool_decide_eq_true; eauto).
Qed.

Lemma get_usable (p : SQLtPlainKV) (w : sql.World) (bucket key : string) :
  usable p w = true →
  ∃ p' w',
    get bucket key p w
    = Ret (default [] (rows p w !! (bucket_or_default bucket, key)), None) p' w'
    ∧ usable p' w' = true ∧ rows p' w' = rows p w
    ∧ currBuckt p' = currBuckt p.
Proof.
  intros Hu. rewrite get_after_Open.
  destruct (Open_usable p w Hu) as (p1 & w1 & -> & Hdb & Hu1 & <- & <-).
  by apply get_opened_usable.
Qed.

(** Finishes the goals on the store after a call. *)
Ltac settle :=
  unfold quiet; simpl;
  repeat split; rewrite ?andb_true_r; try done;
  repeat (apply andb_true_intro; split);
  eauto using calm_tail; try (apply bool_decide_eq_true; eauto).

Lemma set_opened_usable (p : SQLtPlainKV) (w : sql.World) (bucket key : string)
    (value : list byte) :
  is_Some (db p) → usable p w = true →
  (len_string bucket <= 50)%Z → (len_string key <= 300)%Z →
  (len_bytes value <= 16777215)%Z →
  ∃ p' w', set bucket key value p w = Ret None p' w'
    ∧ usable p' w' = true
    ∧ rows p' w' = <[(bucket, key) := value]> (rows p w)
    ∧ currBuckt p' = currBuckt p.
Proof.
  intros [h Hh] (Hr & Hq & Hd)%usable_unfold Hb Hk Hv.
  apply Z.ltb_ge in Hb, Hk, Hv.
  destruct p as [dsn ? [[[] td]|] cb name [] []], w as [d fs];
    simpl in Hh; subst;
    unfold usable, ready, discards, rows, visible in *; simpl in *; try done;
    apply bool_decide_eq_true in Hr as [tb Htb];
    expose; rewrite Hb, Hk, Hv; expose; hush Hq;
    rewrite (upsert_table _ _ _ _ _ _ Htb);
    expose; hush Hq;
    (do 2 eexists; split; [reflexivity|]); simpl;
    rewrite ?lookup_insert_eq, ?Htb; simpl; settle.
Qed.

(** On a store that can run it, with the sizes within bounds, [set]
    succeeds and puts the row in the table, under the bucket name as
    given, leaving every other row as it was. *)
Lemma set_usable (p : SQLtPlainKV) (w : sql.World) (bucket key : string)
    (value : list byte) :
  usable p w = true →
  (len_string bucket <= 50)%Z → (len_string key <= 300)%Z →
  (len_bytes value <= 16777215)%Z →
  ∃ p' w', set bucket key value p w = Ret None p' w'
    ∧ usable p' w' = true
    ∧ rows p' w' = <[(bucket, key) := value]> (rows p w)
    ∧ currBuckt p' = currBuckt p.
Proof.
  intros Hu Hb Hk Hv. rewrite set_after_Open.
  destruct (Open_usable p w Hu) as (p1 & w1 & -> & Hdb & Hu1 & <- & <-).
  by apply set_opened_usable.
Qed.

Lemma delete_row_table (name bucket key : string) (d : sql.Database) t :
  d !! name = Some t →
  sql.delete_row name bucket key d = inl (<[name := delete (bucket, key) t]> d).
Proof. unfold sql.delete_row. by intros ->. Qed.

Lemma Del_opened_usable (p : SQLtPlainKV) (w : sql.World) (key : string) :
  is_Some (db p) → usable p w = true →
  let cb := bucket_or_default (currBuckt p) in
  ∃ p' w', Del key p w = Ret None p' w'
    ∧ usable p' w' = true
    ∧ rows p' w' = delete (mimeBuckt, key) (delete (cb, key) (rows p w))
    ∧ currBuckt p' = cb.
Proof.
  intros [h Hh] (Hr & Hq & Hd)%usable_unfold.
  destruct p as [dsn ? [[[] td]|] cb name [] []], w as [d fs];
    simpl in Hh; subst;
    unfold usable, ready, discards, rows, visible, bucket_or_default in *;
    simpl in *; try done;
    apply bool_decide_eq_true in Hr as [tb Htb];
    expose; destruct (String.eqb cb ""); expose; hush Hq;
    rewrite (delete_row_table _ _ _ _ _ Htb); expose; hush Hq;
    rewrite (delete_row_table _ _ _ _ _ (lookup_insert_eq _ _ _));
    expose; hush Hq;
    (do 2 eexists; split; [reflexivity|]); simpl;
    rewrite ?lookup_insert_eq, ?Htb; simpl; settle.
Qed.

(** On a store that can run it, [Del] succeeds whether or not the key is
    there, and takes the row of the key out of the current bucket and out
    of the mime bucket, leaving every other row as it was. *)
Lemma Del_usable (p : SQLtPlainKV) (w : sql.World) (key : string) :
  usable p w = true →
  let cb := bucket_or_default (currBuckt p) in
  ∃ p' w', Del key p w = Ret None p' w'
    ∧ usable p' w' = true
    ∧ rows p' w' = delete (mimeBuckt, key) (delete (cb, key) (rows p w))
    ∧ currBuckt p' = cb.
Proof.
  intros Hu. rewrite Del_after_Open.
  destruct (Open_usable p w Hu) as (p1 & w1 & -> & Hdb & Hu1 & <- & <-).
  by apply Del_opened_usable.
Qed.



(** ** The public operations on records, one after another *)

Lemma len_bytes_of_string (s : string) :
  len_bytes (list_byte_of_string s) = len_string s.
Proof.
  unfold len_bytes, len_string, list_byte_of_string. f_equal.
  rewrite List.length_map.
  induction s as [|c s IH]; [done|]. simpl. by rewrite IH.
Qed.

Lemma bucket_or_default_idemp (b : string) :
  bucket_or_default (bucket_or_default b) = bucket_or_default b.
Proof. apply bucket_or_default_id, bucket_or_default_nonempty. Qed.

Lemma Set_usable (p : SQLtPlainKV) (w : sql.World) (key : string)
    (value : list byte) :
  usable p w = true →
  let cb := bucket_or_default (currBuckt p) in
  (len_string cb <= 50)%Z → (len_string key <= 300)%Z →
  (len_bytes value <= 16777215)%Z →
  ∃ p' w', Set_ key value p w = Ret None p' w'
    ∧ usable p' w' = true
    ∧ rows p' w' = <[(cb, key) := value]> (rows p w)
    ∧ currBuckt p' = cb.
Proof.
  intros Hu cb Hb Hk Hv. subst cb. unfold Set_. unfold bind at 1, self at 1.
  unfold bucket_or_default in *.
  destruct (String.eqb_spec (currBuckt p) "") as [He|He]; unfold bind at 1.
  - unfold update at 1. unfold bind at 1, self at 1. simpl currBuckt.
    assert (Hu' : usable (with_currBuckt "default" p) w = true)
      by by rewrite usable_with_currBuckt.
    destruct (set_usable _ w "default" key value Hu' Hb Hk Hv)
      as (p' & w' & -> & ? & Hrows & ?).
    rewrite rows_with_currBuckt in Hrows. by exists p', w'.
  - unfold ret at 1. unfold bind at 1, self at 1.
    destruct (set_usable p w (currBuckt p) key value Hu Hb Hk Hv)
      as (p' & w' & -> & ? & Hrows & ?).
    by exists p', w'.
Qed.

Lemma Get_usable (p : SQLtPlainKV) (w : sql.World) (key : string) :
  usable p w = true →
  ∃ p' w',
    Get key p w
    = Ret (default [] (rows p w !! (bucket_or_default (currBuckt p), key)), None)
        p' w'
    ∧ usable p' w' = true ∧ rows p' w' = rows p w ∧ currBuckt p' = currBuckt p.
Proof. intros Hu. unfold Get, bind, self. by apply get_usable. Qed.

Lemma GetMime_usable (p : SQLtPlainKV) (w : sql.World) (key : string) :
  usable p w = true →
  ∃ p' w',
    GetMime key p w
    = Ret (match rows p w !! (mimeBuckt, key) with
           | Some (b :: val) => string_of_list_byte (b :: val)
           | _ => "text/html"
           end, None) p' w'
    ∧ usable p' w' = true ∧ rows p' w' = rows p w ∧ currBuckt p' = currBuckt p.
Proof.
  intros Hu. unfold GetMime, bind.
  destruct (get_usable p w mimeBuckt key Hu) as (p' & w' & -> & ? & ? & ?).
  change (bucket_or_default mimeBuckt) with mimeBuckt.
  exists p', w'. split; [|done].
  by destruct (rows p w !! (mimeBuckt, key)) as [[|b val]|].
Qed.


(** X1. [Set] and then [Get] of the same key return no error and the
    value as set, for every current bucket, the empty one included, whose
    effective name is within the bound. *)
Theorem Set_then_Get (p : SQLtPlainKV) (w : sql.World) (key : string)
    (value : list byte) :
  usable p w = true →
  (len_string (bucket_or_default (currBuckt p)) <= 50)%Z →
  (len_string key <= 300)%Z → (len_bytes value <= 16777215)%Z →
  result ((err <~ Set_ key value ;; r <~ Get key ;; ret (err, r)) p w)
  = Some (None, (value, None)).
Proof.
  intros Hu Hb Hk Hv. unfold bind at 1.
  destruct (Set_usable p w key value Hu Hb Hk Hv) as (p' & w' & -> & Hu' & Hr & Hcb).
  rewrite result_bind_ret.
  destruct (Get_usable p' w' key Hu') as (p2 & w2 & -> & _). simpl.
  by rewrite Hcb, bucket_or_default_idemp, Hr, lookup_insert_eq.
Qed.

Lemma Set_then_Get_witness :
  result ((SetBucket "" ;;; err <~ Set_ "k" ["v"%byte] ;; r <~ Get "k" ;; ret (err, r))
            fresh_store fresh_world)
  = Some (None, (["v"%byte], None)).
Proof.
  apply (Set_then_Get (with_currBuckt "" fresh_store) fresh_world "k" ["v"%byte]);
    [reflexivity | vm_compute; discriminate | vm_compute; discriminate
    | vm_compute; discriminate].
Defined.

(** X2. [Set] touches one row: a [Get] of another key, and a [Get] of any
    key after a switch to another bucket, return what they would have
    returned without the [Set]. *)
Theorem Set_leaves_other_rows (p : SQLtPlainKV) (w : sql.World) (key : string)
    (value : list byte) :
  usable p w = true →
  (len_string (bucket_or_default (currBuckt p)) <= 50)%Z →
  (len_string key <= 300)%Z → (len_bytes value <= 16777215)%Z →
  (∀ key', key' ≠ key →
     result ((Set_ key value ;;; Get key') p w) = result (Get key' p w))
  ∧ (∀ bucket key',
       bucket_or_default bucket ≠ bucket_or_default (currBuckt p) →
       result ((Set_ key value ;;; SetBucket bucket ;;; Get key') p w)
       = result ((SetBucket bucket ;;; Get key') p w)).
Proof.
  intros Hu Hb Hk Hv.
  destruct (Set_usable p w key value Hu Hb Hk Hv) as (p' & w' & HS & Hu' & Hr & Hcb).
  split.
  - intros key' Hne. unfold bind. rewrite HS.
    destruct (Get_usable p' w' key' Hu') as (p2 & w2 & -> & _).
    destruct (Get_usable p w key' Hu) as (p3 & w3 & -> & _). simpl.
    rewrite Hcb, bucket_or_default_idemp, Hr, lookup_insert_ne; [done|congruence].
  - intros bucket key' Hne. unfold bind at 1. rewrite HS.
    unfold bind, SetBucket, update.
    assert (Hu1 : usable (with_currBuckt bucket p') w' = true)
      by by rewrite usable_with_currBuckt.
    assert (Hu2 : usable (with_currBuckt bucket p) w = true)
      by by rewrite usable_with_currBuckt.
    destruct (Get_usable _ _ key' Hu1) as (p2 & w2 & -> & _).
    destruct (Get_usable _ _ key' Hu2) as (p3 & w3 & -> & _). simpl.
    rewrite !rows_with_currBuckt, Hr, lookup_insert_ne; [done|].
    destruct p, p'; simpl in *. congruence.
Qed.

Lemma Set_leaves_other_rows_witness :
  result ((Set_ "a" ["v"%byte] ;;; Get "k") (store_of stocked) (world_of stocked))
  = Some (["v"%byte], None)
  ∧ result ((Set_ "k" [] ;;; SetBucket "other" ;;; Get "k")
              (store_of stocked) (world_of stocked))
    = Some ([], None).
Proof.
  destruct (Set_leaves_other_rows (store_of stocked) (world_of stocked) "a" ["v"%byte])
    as (H1 & _);
    [reflexivity | vm_compute; discriminate | vm_compute; discriminate
    | vm_compute; discriminate |].
  destruct (Set_leaves_other_rows (store_of stocked) (world_of stocked) "k" [])
    as (_ & H2);
    [reflexivity | vm_compute; discriminate | vm_compute; discriminate
    | vm_compute; discriminate |].
  split.
  - rewrite (H1 "k"); [reflexivity | discriminate].
  - rewrite (H2 "other" "k"); [reflexivity | discriminate].
Defined.



(** X4. On a store that can run it, [Del] returns no error whether or not
    the key is there; afterwards [Get] of another key, and [GetMime] of
    another key, return what they would have returned without the [Del]. *)
Theorem Del_leaves_other_keys (p : SQLtPlainKV) (w : sql.World) (key : string) :
  usable p w = true →
  result (Del key p w) = Some None
  ∧ ∀ key', key' ≠ key →
      result ((Del key ;;; Get key') p w) = result (Get key' p w)
      ∧ result ((Del key ;;; GetMime key') p w) = result (GetMime key' p w).
Proof.
  intros Hu.
  destruct (Del_usable p w key Hu) as (p' & w' & HD & Hu' & Hr & Hcb).
  split; [by rewrite HD|]. intros key' Hne. unfold bind. rewrite HD. split.
  - destruct (Get_usable p' w' key' Hu') as (p2 & w2 & -> & _).
    destruct (Get_usable p w key' Hu) as (p3 & w3 & -> & _). simpl.
    rewrite Hcb, bucket_or_default_idemp, Hr.
    rewrite !lookup_delete_ne by congruence. done.
  - destruct (GetMime_usable p' w' key' Hu') as (p2 & w2 & -> & _).
    destruct (GetMime_usable p w key' Hu) as (p3 & w3 & -> & _). simpl.
    rewrite Hr. rewrite !lookup_delete_ne by congruence. done.
Qed.

Lemma Del_leaves_other_keys_witness :
  result (Del "absent" (store_of stocked) (world_of stocked)) = Some None
  ∧ result ((Del "absent" ;;; Get "k") (store_of stocked) (world_of stocked))
    = Some (["v"%byte], None)
  ∧ result ((Del "absent" ;;; GetMime "k") (store_of stocked) (world_of stocked))
    = Some ("application/json", None).
Proof.
  destruct (Del_leaves_other_keys (store_of stocked) (world_of stocked) "absent")
    as (H0 & H1); [reflexivity|].
  split; [exact H0|].
  destruct (H1 "k") as (HG & HM); [discriminate|].
  split; [rewrite HG|rewrite HM]; reflexivity.
Defined.



(** ** Transactions *)

Section isolated.
Context {A B : Type}.

Lemma isolated_ret (a : A) : isolated (ret a).
Proof. by intros p w Hin. Qed.

Lemma isolated_bind (m : M A) (k : A → M B) :
  isolated m → (∀ a, isolated (k a)) → isolated (bind m k).
Proof.
  intros Hm Hk p w Hin. unfold bind. destruct (Hm p w Hin) as (Hin' & Hd & Hn).
  destruct (m p w) as [a p' w'|p' w']; simpl in *; [|done].
  destruct (Hk a p' w' Hin') as (? & ? & ?). repeat split; [done|congruence..].
Qed.

End isolated.

Lemma isolated_self : isolated self.
Proof. by intros p w Hin. Qed.

(** Runs one call of a store that is in a transaction through all the
    answers of the engine. *)
Ltac isolate :=
  let Hin := fresh in
  intros p w Hin;
  destruct p as [dsn [h|] [[[] td]|] cb name [] []], w as [d fs];
  try done; clear Hin; expose;
  repeat (case_match; simplify_eq; expose); done.

Lemma isolated_get bucket key : isolated (get bucket key).
Proof. isolate. Qed.

Lemma isolated_set bucket key value : isolated (set bucket key value).
Proof. isolate. Qed.

Lemma isolated_Del key : isolated (Del key).
Proof. isolate. Qed.

Lemma isolated_ListKeys pattern : isolated (ListKeys pattern).
Proof. isolate. Qed.

Lemma isolated_Set key value : isolated (Set_ key value).
Proof. isolate. Qed.

(** Goes through a method made of calls that are isolated. *)
Ltac isolating :=
  repeat match goal with
    | |- isolated (bind _ _) => apply isolated_bind; [|intros ?]
    | |- isolated (ret _) => apply isolated_ret
    | |- isolated self => apply isolated_self
    | |- isolated (get _ _) => apply isolated_get
    | |- isolated (set _ _ _) => apply isolated_set
    | H : ∀ _ _, isolated (Tally _ _) |- isolated (Tally _ _) => apply H
    | |- isolated (match ?x with _ => _ end) => destruct x
    | |- isolated (let _ := _ in _) => cbv zeta
    end.

Lemma isolated_Get key : isolated (Get key).
Proof. unfold Get. isolating. Qed.

Lemma isolated_GetMime key : isolated (GetMime key).
Proof. unfold GetMime. isolating. Qed.

Lemma isolated_SetMime key mime : isolated (SetMime key mime).
Proof. unfold SetMime. isolating. Qed.

Lemma isolated_Tally key offset : isolated (Tally key offset).
Proof. unfold Tally. isolating. Qed.

Lemma isolated_TallyIncr key : isolated (TallyIncr key).
Proof. pose proof isolated_Tally. unfold TallyIncr. isolating. Qed.

Lemma isolated_TallyDecr key : isolated (TallyDecr key).
Proof. pose proof isolated_Tally. unfold TallyDecr. isolating. Qed.

Lemma isolated_TallyReset key : isolated (TallyReset key).
Proof. unfold TallyReset. isolating. Qed.

(** Rollback and Close leave the file as it is, in every state. *)
Lemma Rollback_keeps_file (p : SQLtPlainKV) (w : sql.World) :
  sql.disk (world_of (Rollback p w)) = sql.disk w.
Proof.
  destruct p as [dsn h [[[] td]|] cb name ac it], w as [d fs]; expose;
    repeat (case_match; simplify_eq; expose); done.
Qed.

Lemma Close_keeps_file (p : SQLtPlainKV) (w : sql.World) :
  sql.disk (world_of (Close p w)) = sql.disk w.
Proof. by destruct (Close_run p w) as (e & p' & w' & -> & _ & _ & _ & _ & ? & _). Qed.

Lemma Begin_usable (p : SQLtPlainKV) (w : sql.World) :
  is_Some (db p) → inTransaction p = false → autoClose p = false →
  usable p w = true →
  ∃ p' w', Begin p w = Ret None p' w'
    ∧ usable p' w' = true ∧ in_tx p' = true
    ∧ rows p' w' = rows p w ∧ currBuckt p' = currBuckt p
    ∧ defTableName p' = defTableName p ∧ sql.disk w' = sql.disk w.
Proof.
  intros [h Hh] Hit Hac (Hr & Hq & Hd)%usable_unfold.
  destruct p as [dsn ? t cb name ? ?], w as [d fs]; simpl in *; subst.
  unfold ready in Hr; simpl in Hr. apply bool_decide_eq_true in Hr as [tb Htb].
  expose. hush Hq. do 2 eexists; split; [reflexivity|].
  unfold usable, ready, discards, in_tx, rows, visible; simpl. rewrite Htb. settle.
Qed.

Lemma Commit_usable (p : SQLtPlainKV) (w : sql.World) :
  in_tx p = true → usable p w = true →
  ∃ p' w', Commit p w = Ret None p' w'
    ∧ usable p' w' = true ∧ is_Some (db p')
    ∧ inTransaction p' = false ∧ autoClose p' = false
    ∧ rows p' w' = rows p w ∧ filed p' w' = rows p w
    ∧ currBuckt p' = currBuckt p.
Proof.
  intros Hin (Hr & Hq & Hd)%usable_unfold.
  destruct p as [dsn [h|] [[[] td]|] cb name [] []], w as [d fs]; try done.
  unfold ready in Hr; simpl in Hr. apply bool_decide_eq_true in Hr as [tb Htb].
  expose. hush Hq. do 2 eexists; split; [reflexivity|].
  unfold usable, ready, discards, rows, filed, visible; simpl. rewrite Htb. settle.
Qed.

Lemma Rollback_usable (p : SQLtPlainKV) (w : sql.World) :
  in_tx p = true → usable p w = true →
  is_Some (sql.disk w !! defTableName p) →
  ∃ p' w', Rollback p w = Ret None p' w'
    ∧ usable p' w' = true ∧ is_Some (db p')
    ∧ inTransaction p' = false ∧ autoClose p' = false
    ∧ rows p' w' = filed p w ∧ sql.disk w' = sql.disk w
    ∧ currBuckt p' = currBuckt p.
Proof.
  intros Hin (Hr & Hq & Hd)%usable_unfold [tb Htb].
  destruct p as [dsn [h|] [[[] td]|] cb name [] []], w as [d fs]; try done.
  simpl in Htb. expose. hush Hq. do 2 eexists; split; [reflexivity|].
  unfold usable, ready, discards, rows, filed, visible; simpl. rewrite Htb. settle.
Qed.

Lemma Close_quiet (p : SQLtPlainKV) (w : sql.World) :
  quiet w = true →
  ∃ p' w', Close p w = Ret None p' w'
    ∧ usable p' w' = true ∧ db p' = None ∧ tx p' = None
    ∧ rows p' w' = filed p w ∧ sql.disk w' = sql.disk w
    ∧ currBuckt p' = currBuckt p.
Proof.
  intros Hq.
  destruct p as [dsn [h|] [t|] cb name ac it], w as [d fs]; expose; hush Hq;
    (do 2 eexists; split; [reflexivity|]);
    unfold usable, ready, discards, rows, filed, visible; simpl;
    rewrite ?andb_false_r; settle.
Qed.

(** A store with its connection, outside a transaction, that stays open
    between calls. *)
Lemma usable_filed (p : SQLtPlainKV) (w : sql.World) :
  inTransaction p = false → rows p w = filed p w.
Proof. destruct p as [? [?|] ? ? ? ? ?]; simpl; by intros ->. Qed.

Lemma usable_table_filed (p : SQLtPlainKV) (w : sql.World) :
  is_Some (db p) → inTransaction p = false → usable p w = true →
  is_Some (sql.disk w !! defTableName p).
Proof.
  intros [h Hh] Hit (Hr & _)%usable_unfold.
  destruct p; simpl in *; subst. unfold ready in Hr; simpl in Hr.
  by apply bool_decide_eq_true in Hr.
Qed.

Lemma bind_run {A B} (m : M A) (k : A → M B) p w a p' w' :
  m p w = Ret a p' w' → bind m k p w = k a p' w'.
Proof. unfold bind. by intros ->. Qed.

(** Begin and one [Set] in the transaction, on a store that has its
    connection and stays open between calls. *)
Lemma Begin_Set_run (p : SQLtPlainKV) (w : sql.World) (key : string)
    (value : list byte) :
  is_Some (db p) → inTransaction p = false → autoClose p = false →
  usable p w = true →
  let cb := bucket_or_default (currBuckt p) in
  (len_string cb <= 50)%Z → (len_string key <= 300)%Z →
  (len_bytes value <= 16777215)%Z →
  ∃ p1 w1 p2 w2,
    Begin p w = Ret None p1 w1 ∧ Set_ key value p1 w1 = Ret None p2 w2
    ∧ usable p2 w2 = true ∧ in_tx p2 = true
    ∧ rows p2 w2 = <[(cb, key) := value]> (filed p w)
    ∧ currBuckt p2 = cb ∧ defTableName p2 = defTableName p
    ∧ sql.disk w2 = sql.disk w.
Proof.
  intros Hdb Hit Hac Hu cb Hb Hk Hv.
  destruct (Begin_usable p w Hdb Hit Hac Hu)
    as (p1 & w1 & HB & Hu1 & Hin1 & Hr1 & Hcb1 & Hn1 & Hd1).
  destruct (Set_usable p1 w1 key value Hu1) as (p2 & w2 & HS & Hu2 & Hr2 & Hcb2);
    rewrite ?Hcb1; try done.
  destruct (isolated_Set key value p1 w1 Hin1) as (Hin2 & Hd2 & Hn2).
  rewrite HS in Hin2, Hd2, Hn2. simpl in *.
  exists p1, w1, p2, w2. repeat split; try done; try congruence.
  - by rewrite Hr2, Hr1, Hcb1, (usable_filed p w Hit).
  - by rewrite Hcb2, Hcb1.
Qed.

(** X6. What is set in a transaction and committed is on file: after
    Begin, [Set], Commit and Close, a [Get] on the connection opened anew
    returns the value. *)
Theorem Commit_publishes (p : SQLtPlainKV) (w : sql.World) (key : string)
    (value : list byte) :
  is_Some (db p) → inTransaction p = false → autoClose p = false →
  usable p w = true →
  (len_string (bucket_or_default (currBuckt p)) <= 50)%Z →
  (len_string key <= 300)%Z → (len_bytes value <= 16777215)%Z →
  result ((Begin ;;; e <~ Set_ key value ;; c <~ Commit ;; Close ;;;
           r <~ Get key ;; ret (e, c, r)) p w)
  = Some (None, None, (value, None)).
Proof.
  intros Hdb Hit Hac Hu Hb Hk Hv.
  destruct (Begin_Set_run p w key value Hdb Hit Hac Hu Hb Hk Hv)
    as (p1 & w1 & p2 & w2 & HB & HS & Hu2 & Hin2 & Hr2 & Hcb2 & Hn2 & Hd2).
  destruct (Commit_usable p2 w2 Hin2 Hu2)
    as (p3 & w3 & HC & Hu3 & _ & _ & _ & _ & Hf3 & Hcb3).
  destruct (usable_unfold _ _ Hu3) as (_ & Hq3 & _).
  destruct (Close_quiet p3 w3 Hq3) as (p4 & w4 & HX & Hu4 & _ & _ & Hr4 & _ & Hcb4).
  destruct (Get_usable p4 w4 key Hu4) as (p5 & w5 & HG & _).
  rewrite (bind_run _ _ _ _ _ _ _ HB), (bind_run _ _ _ _ _ _ _ HS),
    (bind_run _ _ _ _ _ _ _ HC), (bind_run _ _ _ _ _ _ _ HX),
    (bind_run _ _ _ _ _ _ _ HG). simpl.
  rewrite Hr4, Hf3, Hr2, Hcb4, Hcb3, Hcb2, bucket_or_default_idemp.
  by rewrite lookup_insert_eq.
Qed.

Lemma Commit_publishes_witness :
  result ((Begin ;;; e <~ Set_ "k" ["v"%byte] ;; c <~ Commit ;; Close ;;;
           r <~ Get "k" ;; ret (e, c, r)) opened_store (opened_world []))
  = Some (None, None, (["v"%byte], None)).
Proof.
  apply (Commit_publishes opened_store (opened_world []) "k" ["v"%byte]);
    [by eexists | reflexivity | reflexivity | reflexivity
    | vm_compute; discriminate | vm_compute; discriminate
    | vm_compute; discriminate].
Defined.

(** X7. What is set in a transaction and rolled back is gone: after
    Begin, [Set] and Rollback, every [Get] returns what it would have
    returned before Begin. *)
Theorem Rollback_restores (p : SQLtPlainKV) (w : sql.World) (key key' : string)
    (value : list byte) :
  is_Some (db p) → inTransaction p = false → autoClose p = false →
  usable p w = true →
  (len_string (bucket_or_default (currBuckt p)) <= 50)%Z →
  (len_string key <= 300)%Z → (len_bytes value <= 16777215)%Z →
  result ((Begin ;;; e <~ Set_ key value ;; c <~ Rollback ;;
           r <~ Get key' ;; ret (e, c, r)) p w)
  = (λ r, (None, None, r)) <$> result (Get key' p w).
Proof.
  intros Hdb Hit Hac Hu Hb Hk Hv.
  destruct (Begin_Set_run p w key value Hdb Hit Hac Hu Hb Hk Hv)
    as (p1 & w1 & p2 & w2 & HB & HS & Hu2 & Hin2 & Hr2 & Hcb2 & Hn2 & Hd2).
  assert (Ht : is_Some (sql.disk w2 !! defTableName p2)).
  { rewrite Hd2, Hn2. by apply usable_table_filed. }
  destruct (Rollback_usable p2 w2 Hin2 Hu2 Ht)
    as (p3 & w3 & HR & Hu3 & _ & _ & _ & Hr3 & _ & Hcb3).
  destruct (Get_usable p3 w3 key' Hu3) as (p5 & w5 & HG & _).
  destruct (Get_usable p w key' Hu) as (p6 & w6 & HG0 & _).
  rewrite (bind_run _ _ _ _ _ _ _ HB), (bind_run _ _ _ _ _ _ _ HS),
    (bind_run _ _ _ _ _ _ _ HR), (bind_run _ _ _ _ _ _ _ HG), HG0. simpl.
  rewrite Hr3, Hcb3, Hcb2, bucket_or_default_idemp, (usable_filed p w Hit).
  unfold filed. by rewrite Hd2, Hn2.
Qed.

Lemma Rollback_restores_witness :
  let p := store_of stocked in
  let w := world_of stocked in
  result ((Begin ;;; e <~ Set_ "k" ["n"%byte] ;; c <~ Rollback ;;
           r <~ Get "k" ;; ret (e, c, r)) p w)
  = Some (None, None, (["v"%byte], None)).
Proof.
  intros p w.
  rewrite (Rollback_restores p w "k" "k" ["n"%byte]);
    [reflexivity | by eexists | reflexivity | reflexivity | reflexivity
    | vm_compute; discriminate | vm_compute; discriminate
    | vm_compute; discriminate].
Defined.

(** X8. Close does not commit: after Begin and [Set], Close drops the
    transaction, and every [Get] on the connection opened anew returns
    what it would have returned before Begin. *)
Theorem Close_drops_transaction (p : SQLtPlainKV) (w : sql.World)
    (key key' : string) (value : list byte) :
  is_Some (db p) → inTransaction p = false → autoClose p = false →
  usable p w = true →
  (len_string (bucket_or_default (currBuckt p)) <= 50)%Z →
  (len_string key <= 300)%Z → (len_bytes value <= 16777215)%Z →
  result ((Begin ;;; e <~ Set_ key value ;; c <~ Close ;;
           r <~ Get key' ;; ret (e, c, r)) p w)
  = (λ r, (None, None, r)) <$> result (Get key' p w).
Proof.
  intros Hdb Hit Hac Hu Hb Hk Hv.
  destruct (Begin_Set_run p w key value Hdb Hit Hac Hu Hb Hk Hv)
    as (p1 & w1 & p2 & w2 & HB & HS & Hu2 & Hin2 & Hr2 & Hcb2 & Hn2 & Hd2).
  destruct (usable_unfold _ _ Hu2) as (_ & Hq2 & _).
  destruct (Close_quiet p2 w2 Hq2) as (p3 & w3 & HX & Hu3 & _ & _ & Hr3 & _ & Hcb3).
  destruct (Get_usable p3 w3 key' Hu3) as (p5 & w5 & HG & _).
  destruct (Get_usable p w key' Hu) as (p6 & w6 & HG0 & _).
  rewrite (bind_run _ _ _ _ _ _ _ HB), (bind_run _ _ _ _ _ _ _ HS),
    (bind_run _ _ _ _ _ _ _ HX), (bind_run _ _ _ _ _ _ _ HG), HG0. simpl.
  rewrite Hr3, Hcb3, Hcb2, bucket_or_default_idemp, (usable_filed p w Hit).
  unfold filed. by rewrite Hd2, Hn2.
Qed.

Lemma Close_drops_transaction_witness :
  let p := store_of stocked in
  let w := world_of stocked in
  result ((Begin ;;; e <~ Set_ "k" ["n"%byte] ;; c <~ Close ;;
           r <~ Get "k" ;; ret (e, c, r)) p w)
  = Some (None, None, (["v"%byte], None)).
Proof.
  intros p w.
  rewrite (Close_drops_transaction p w "k" "k" ["n"%byte]);
    [reflexivity | by eexists | reflexivity | reflexivity | reflexivity
    | vm_compute; discriminate | vm_compute; discriminate
    | vm_compute; discriminate].
Defined.

(** X9. In a transaction of a store that stays open between calls, no
    operation on records or counters changes the file, whatever the
    engine answers, and neither does the Rollback that follows it. *)
Theorem transaction_keeps_file (p : SQLtPlainKV) (w : sql.World)
    (bucket key pattern mime : string) (value : list byte) (offset : Z) :
  in_tx p = true →
  let untouched {A} (m : M A) :=
    sql.disk (world_of (m p w)) = sql.disk w
    ∧ sql.disk (world_of ((m ;;; Rollback) p w)) = sql.disk w in
  untouched (get bucket key) ∧ untouched (set bucket key value)
  ∧ untouched (Get key) ∧ untouched (Set_ key value)
  ∧ untouched (GetMime key) ∧ untouched (SetMime key mime)
  ∧ untouched (Del key) ∧ untouched (ListKeys pattern)
  ∧ untouched (Tally key offset) ∧ untouched (TallyIncr key)
  ∧ untouched (TallyDecr key) ∧ untouched (TallyReset key).
Proof.
  intros Hin untouched.
  assert (H : ∀ {A} (m : M A), isolated m → untouched A m).
  { intros A m Hm. destruct (Hm p w Hin) as (_ & Hd & _). split; [done|].
    unfold bind. destruct (m p w) as [a p' w'|p' w']; simpl in *; [|done].
    by rewrite Rollback_keeps_file. }
  repeat split; apply H;
    auto using isolated_get, isolated_set, isolated_Get, isolated_Set,
      isolated_GetMime, isolated_SetMime, isolated_Del, isolated_ListKeys,
      isolated_Tally, isolated_TallyIncr, isolated_TallyDecr, isolated_TallyReset.
Qed.

Lemma transaction_keeps_file_witness :
  let p := store_of begun in
  let w := world_of begun in
  result (set "b" "k" ["v"%byte] p w) = Some None
  ∧ sql.disk (world_of (set "b" "k" ["v"%byte] p w)) = sql.disk w.
Proof.
  intros p w. split; [reflexivity|].
  destruct (transaction_keeps_file p w "b" "k" "" "" ["v"%byte] 0 eq_refl)
    as (_ & (H & _) & _).
  exact H.
Defined.

(** ** Open *)

(** X10. Open on a store without a connection, with the engine answering,
    connects, clears [inTransaction], and creates the store's table when
    it is missing; it changes no row of any table, and a second Open does
    nothing. *)
Theorem Open_connects_once (p : SQLtPlainKV) (w : sql.World) :
  db p = None → quiet w = true →
  ∃ p' w', Open p w = Ret None p' w'
    ∧ is_Some (db p') ∧ inTransaction p' = false
    ∧ is_Some (sql.disk w' !! defTableName p)
    ∧ (∀ name, default ∅ (sql.disk w' !! name) = default ∅ (sql.disk w !! name))
    ∧ Open p' w' = Ret None p' w'.
Proof.
  intros Hdb Hq.
  destruct p as [dsn ? t cb name ac it], w as [d fs]; simpl in *; subst.
  expose. hush Hq. do 2 eexists; split; [reflexivity|]. simpl.
  split; [by eexists|]. split; [done|].
  split; [rewrite create_table_lookup; by eexists|]. split; [|done].
  intros n. unfold sql.create_table.
  destruct (d !! name) eqn:E; [done|].
  destruct (decide (name = n)) as [<-|Hne].
  - by rewrite lookup_insert_eq, E.
  - by rewrite lookup_insert_ne.
Qed.

Lemma Open_connects_once_witness :
  ∃ p' w', Open fresh_store fresh_world = Ret None p' w'
    ∧ is_Some (sql.disk w' !! "KeyValueTBL") ∧ Open p' w' = Ret None p' w'.
Proof.
  destruct (Open_connects_once fresh_store fresh_world)
    as (p' & w' & HO & _ & _ & Ht & _ & HO'); [reflexivity..|].
  exists p', w'. split; [exact HO|]. split; [exact Ht|exact HO'].
Defined.

(** ** Reads *)

Lemma Open_keeps_rows (p : SQLtPlainKV) (w : sql.World) (name : string) :
  default ∅ (sql.disk (world_of (Open p w)) !! name)
  = default ∅ (sql.disk w !! name).
Proof.
  destruct p as [dsn [h|] t cb n ac it], w as [d fs]; expose; [done|].
  destruct (hd None fs); expose; [done|].
  destruct (hd None (tail fs)); expose; [done|]. simpl.
  unfold sql.create_table. destruct (d !! n) eqn:E; [done|].
  destruct (decide (n = name)) as [<-|Hne].
  - by rewrite lookup_insert_eq, E.
  - by rewrite lookup_insert_ne.
Qed.

(** Runs one call of a store that has its connection through all the
    answers of the engine. *)
Ltac through :=
  let Hdb := fresh in
  intros p w [? Hdb];
  destruct p as [dsn ? [[[] td]|] cb name [] []], w as [d fs];
  simpl in Hdb; subst; expose;
  repeat (case_match; simplify_eq; expose); done.

Lemma get_opened_keeps_file bucket key :
  ∀ p w, is_Some (db p) → sql.disk (world_of (get bucket key p w)) = sql.disk w.
Proof. through. Qed.

Lemma ListKeys_opened_keeps_file pattern :
  ∀ p w, is_Some (db p) → sql.disk (world_of (ListKeys pattern p w)) = sql.disk w.
Proof. through. Qed.

Lemma after_Open_keeps_rows {A} (m : M A) failed :
  after_Open m failed →
  (∀ p w, is_Some (db p) → sql.disk (world_of (m p w)) = sql.disk w) →
  ∀ p w name,
    default ∅ (sql.disk (world_of (m p w)) !! name)
    = default ∅ (sql.disk w !! name).
Proof.
  intros Hm Hk p w name. rewrite Hm. rewrite <- (Open_keeps_rows p w name).
  destruct (Open_run p w) as (e & p1 & w1 & -> & _ & _ & _ & _ & H).
  destruct e as [e|]; [done|]. destruct (H eq_refl) as (Hdb & _). simpl.
  by rewrite Hk.
Qed.

(** X11. [get], [Get], [GetMime] and [ListKeys] change no row of any
    table on file, whatever the state of the store and whatever the engine
    answers; the most they do to the file is the creation of the empty
    table by their Open step. *)
Theorem reads_keep_rows (p : SQLtPlainKV) (w : sql.World)
    (bucket key pattern name : string) :
  let same {A} (m : M A) :=
    default ∅ (sql.disk (world_of (m p w)) !! name)
    = default ∅ (sql.disk w !! name) in
  same (get bucket key) ∧ same (Get key) ∧ same (GetMime key)
  ∧ same (ListKeys pattern).
Proof.
  intros same. unfold same. clear same.
  pose proof (λ b, after_Open_keeps_rows _ _ (get_after_Open b key)
                     (get_opened_keeps_file b key) p w name) as Hg.
  split; [exact (Hg bucket)|]. split.
  { unfold Get, bind, self. exact (Hg (currBuckt p)). }
  split.
  - unfold GetMime, bind. specialize (Hg mimeBuckt).
    destruct (get mimeBuckt key p w) as [[v e] p' w'|p' w']; [|exact Hg].
    simpl. by destruct (notnil e || (len_bytes v =? 0)%Z).
  - exact (after_Open_keeps_rows _ _ (ListKeys_after_Open pattern)
             (ListKeys_opened_keeps_file pattern) p w name).
Qed.

(** ** The table name *)



(** ** Begin *)




(** ** The mime bucket *)



(** ** Decimal numbers *)

Lemma of_uint_acc_le (d : Decimal.uint) :
  ∀ acc, (Z.pos acc * 10 ^ Z.of_nat (Decimal.nb_digits d)
          <= Z.pos (Pos.of_uint_acc d acc))%Z.
Proof.
  induction d; intros acc; cbn [Pos.of_uint_acc Decimal.nb_digits];
    [rewrite Z.pow_0_r; lia|..];
    (etransitivity; [|apply IHd]); rewrite Nat2Z.inj_succ, Z.pow_succ_r by lia;
    nia.
Qed.

Lemma parseDigits_step (c : ascii) (s : string) (n k : Z) :
  (Z.of_nat (nat_of_ascii c) - 48 = k)%Z → (0 <= k <= 9)%Z → (0 <= n)%Z →
  (n * 10 + k <= strconv.maxUint64)%Z →
  strconv.parseDigits (String c s) n = strconv.parseDigits s (n * 10 + k)%Z.
Proof.
  intros Hc Hk Hn Hm. cbn [strconv.parseDigits]. cbv zeta. rewrite Hc.
  unfold strconv.maxUint64 in *.
  replace ((0 <=? k)%Z) with true by (symmetry; apply Z.leb_le; lia).
  replace ((k <=? 9)%Z) with true by (symmetry; apply Z.leb_le; lia).
  cbn [andb negb].
  replace ((18446744073709551615 / 10 + 1 <=? n)%Z) with false
    by (symmetry; apply Z.leb_gt; change (18446744073709551615 / 10 + 1)%Z
          with 1844674407370955162%Z; lia).
  replace ((18446744073709551615 <? n * 10 + k)%Z) with false
    by (symmetry; apply Z.ltb_ge; lia).
  reflexivity.
Qed.

Lemma parseDigits_acc (d : Decimal.uint) :
  ∀ acc, (Z.pos (Pos.of_uint_acc d acc) <= strconv.maxUint64)%Z →
    strconv.parseDigits (NilEmpty.string_of_uint d) (Z.pos acc)
    = inl (Z.pos (Pos.of_uint_acc d acc)).
Proof.
  induction d; intros acc H;
    cbn [NilEmpty.string_of_uint Pos.of_uint_acc] in *; [done|..];
    match goal with
    | H : (Z.pos (Pos.of_uint_acc _ ?a) <= _)%Z |- _ =>
        pose proof (of_uint_acc_le d a) as Hle;
        assert (Z.pos a <= strconv.maxUint64)%Z
          by (assert (0 < 10 ^ Z.of_nat (Decimal.nb_digits d))%Z
                by (apply Z.pow_pos_nonneg; lia);
              assert (Z.pos a * 1 <= Z.pos a * 10 ^ Z.of_nat (Decimal.nb_digits d))%Z
                by (apply Z.mul_le_mono_nonneg_l; lia);
              lia);
        rewrite <- (IHd a H)
    end;
    (erewrite parseDigits_step; cycle 1;
       [vm_compute; reflexivity|lia|lia|lia|f_equal; lia]).
Qed.

Lemma parseDigits_uint (d : Decimal.uint) :
  (Z.of_N (Pos.of_uint d) <= strconv.maxUint64)%Z →
  strconv.parseDigits (NilEmpty.string_of_uint d) 0
  = inl (Z.of_N (Pos.of_uint d)).
Proof.
  induction d; intros H; cbn [NilEmpty.string_of_uint Pos.of_uint] in *;
    [done|..].
  1: { erewrite parseDigits_step; cycle 1;
         [vm_compute; reflexivity|lia|lia|vm_compute; discriminate|by apply IHd]. }
  all: cbn [Z.of_N] in *; rewrite <- (parseDigits_acc d _ H);
    (erewrite parseDigits_step; cycle 1;
       [vm_compute; reflexivity|lia|lia|vm_compute; discriminate|reflexivity]).
Qed.

Lemma Atoi_unsigned (c : ascii) (s : string) (un : Z) :
  Ascii.eqb c "-" = false → Ascii.eqb c "+" = false →
  strconv.parseDigits (String c s) 0 = inl un → (un < 2 ^ 63)%Z →
  strconv.Atoi (String c s) = (un, None).
Proof.
  intros Hm Hp Hd Hu. unfold strconv.Atoi. rewrite Hm, Hp. cbn [orb].
  rewrite Hd. cbn [negb andb].
  by replace ((2 ^ 63 <=? un)%Z) with false by (symmetry; apply Z.leb_gt; lia).
Qed.

Lemma Atoi_negative (c : ascii) (s : string) (un : Z) :
  strconv.parseDigits (String c s) 0 = inl un → (un <= 2 ^ 63)%Z →
  strconv.Atoi (String "-" (String c s)) = ((- un)%Z, None).
Proof.
  intros Hd Hu. unfold strconv.Atoi.
  change (Ascii.eqb "-" "-") with true. cbn [orb].
  rewrite Hd. cbn [negb andb].
  by replace ((2 ^ 63 <? un)%Z) with false by (symmetry; apply Z.ltb_ge; lia).
Qed.

Lemma string_of_to_uint (p : positive) :
  ∃ c s, NilEmpty.string_of_uint (Pos.to_uint p) = String c s
         ∧ Ascii.eqb c "-" = false ∧ Ascii.eqb c "+" = false
         ∧ NilZero.string_of_uint (Pos.to_uint p) = String c s.
Proof.
  pose proof (Unsigned.to_uint_nonnil p).
  destruct (Pos.to_uint p); [done|..]; by do 2 eexists.
Qed.

(** What [Itoa] writes, [Atoi] reads back. *)
Lemma Atoi_Itoa (z : Z) :
  (- 2 ^ 63 <= z < 2 ^ 63)%Z → strconv.Atoi (strconv.Itoa z) = (z, None).
Proof.
  intros Hz. unfold strconv.Itoa. destruct z as [|p|p]; [done|..];
    cbn [Z.to_int NilZero.string_of_int];
    destruct (string_of_to_uint p) as (c & s & Hs & Hm & Hp & ->);
    pose proof (parseDigits_uint (Pos.to_uint p)) as Hd;
    rewrite DecimalPos.Unsigned.of_to, Hs in Hd; cbn [Z.of_N] in Hd.
  - apply Atoi_unsigned; [done..|apply Hd; unfold strconv.maxUint64|]; lia.
  - change (Z.neg p) with (- Z.pos p)%Z.
    apply Atoi_negative; [apply Hd; unfold strconv.maxUint64|]; lia.
Qed.

Lemma to_uint_leading (p : positive) :
  ∃ d acc, Pos.of_uint (Pos.to_uint p) = N.pos (Pos.of_uint_acc d acc)
           ∧ Decimal.nb_digits (Pos.to_uint p) = S (Decimal.nb_digits d).
Proof.
  pose proof (DecimalPos.Unsigned.to_of (Pos.to_uint p)) as Hn.
  rewrite DecimalPos.Unsigned.of_to in Hn. cbn [N.to_uint] in Hn.
  pose proof (Unsigned.to_uint_nonnil p) as Hnil.
  pose proof (Unsigned.to_uint_nonzero p) as Hz.
  destruct (Pos.to_uint p) as [|d|d|d|d|d|d|d|d|d|d]; [done| |by do 2 eexists..].
  exfalso. unfold Decimal.unorm in Hn. cbn [Decimal.nzhead] in Hn.
  pose proof (nb_digits_nzhead d) as Hl.
  destruct (Decimal.nzhead d); [done|..]; rewrite <- Hn in Hl;
    cbn [Decimal.nb_digits] in Hl; lia.
Qed.

Lemma length_string_of_uint (d : Decimal.uint) :
  String.length (NilEmpty.string_of_uint d) = Decimal.nb_digits d.
Proof.
  induction d; cbn [NilEmpty.string_of_uint Decimal.nb_digits String.length];
    congruence.
Qed.

Lemma Itoa_length (z : Z) :
  (- 2 ^ 63 <= z < 2 ^ 63)%Z →
  (0 < len_string (strconv.Itoa z) <= 20)%Z.
Proof.
  intros Hz. unfold strconv.Itoa, len_string.
  destruct z as [|p|p]; [done|..]; cbn [Z.to_int NilZero.string_of_int];
    destruct (string_of_to_uint p) as (c & s & Hs & _ & _ & ->);
    rewrite <- Hs; cbn [String.length]; rewrite length_string_of_uint;
    destruct (to_uint_leading p) as (d & acc & Hv & ->);
    rewrite DecimalPos.Unsigned.of_to in Hv; injection Hv as ->;
    pose proof (of_uint_acc_le d acc) as Hle;
    (assert (Decimal.nb_digits d < 19)%nat; [|lia]);
    (destruct (Nat.lt_ge_cases (Decimal.nb_digits d) 19) as [|Hge]; [done|]);
    exfalso;
    (assert (10 ^ 19 <= 10 ^ Z.of_nat (Decimal.nb_digits d))%Z
      by (apply Z.pow_le_mono_r; lia));
    nia.
Qed.

(** ** Counters *)

Lemma int64_wrap_int (z : Z) : int64 (wrap_int z).
Proof.
  unfold int64, wrap_int.
  pose proof (Z.mod_pos_bound (z + 2 ^ 63) (2 ^ 64)). lia.
Qed.

Lemma wrap_int_int64 (z : Z) : int64 z → wrap_int z = z.
Proof. unfold int64, wrap_int. intros H. rewrite Z.mod_small; lia. Qed.

Lemma wrap_int_add (a b : Z) : wrap_int (wrap_int a + b) = wrap_int (a + b).
Proof.
  unfold wrap_int. f_equal.
  replace ((a + 2 ^ 63) mod 2 ^ 64 - 2 ^ 63 + b + 2 ^ 63)%Z
    with ((a + 2 ^ 63) mod 2 ^ 64 + b)%Z by lia.
  rewrite Zplus_mod_idemp_l. f_equal. lia.
Qed.

Lemma number_read (z : Z) :
  int64 z →
  fst (strconv.Atoi (string_of_list_byte (number z))) = z
  ∧ (len_bytes (number z) =? 0)%Z = false
  ∧ (len_bytes (number z) <= 16777215)%Z.
Proof.
  intros Hz. unfold number.
  rewrite string_of_list_byte_of_string, len_bytes_of_string, (Atoi_Itoa z Hz).
  pose proof (Itoa_length z Hz). split; [done|]. split; [apply Z.eqb_neq|]; lia.
Qed.

Lemma len_tallyKey (key : string) :
  len_string (tallyKey key) = (14 + len_string key)%Z.
Proof.
  unfold len_string, tallyKey. simpl String.length.
  change ("" +:+ key) with key. lia.
Qed.

Lemma bind_self {A} (k : SQLtPlainKV → M A) p w : bind self k p w = k p p w.
Proof. done. Qed.

Lemma bind_ret {A B} (a : A) (k : A → M B) p w : bind (ret a) k p w = k a p w.
Proof. done. Qed.

Lemma set_usable_key_too_long (p : SQLtPlainKV) (w : sql.World)
    (bucket key : string) (value : list byte) :
  usable p w = true →
  (len_string bucket <= 50)%Z → (300 < len_string key)%Z →
  ∃ p' w', set bucket key value p w = Ret (Some ErrKeyTooLong) p' w'
    ∧ usable p' w' = true ∧ rows p' w' = rows p w
    ∧ currBuckt p' = currBuckt p.
Proof.
  intros Hu Hb Hk. rewrite set_after_Open.
  destruct (Open_usable p w Hu) as (p1 & w1 & -> & [h Hh] & Hu1 & <- & <-).
  clear Hu. apply usable_unfold in Hu1 as (Hr & Hq & Hd).
  apply Z.ltb_ge in Hb. apply Z.ltb_lt in Hk.
  destruct p1 as [dsn ? [[[] td]|] cb name [] []], w1 as [d fs];
    simpl in Hh; subst;
    unfold usable, ready, discards, rows, visible in *; simpl in *; try done;
    apply bool_decide_eq_true in Hr as [tb Htb];
    expose; rewrite Hb, Hk; expose; hush Hq;
    (do 2 eexists; split; [reflexivity|]); simpl;
    rewrite ?Htb; simpl; settle.
Qed.

(** [Tally] on a counter that has a record returns its number and sends no
    statement but the query. *)
Lemma Tally_usable_counting (p : SQLtPlainKV) (w : sql.World) (key : string)
    (offset n : Z) :
  usable p w = true → int64 n → tally p w key = number n →
  ∃ p' w', Tally key offset p w = Ret (n, None) p' w'
    ∧ usable p' w' = true ∧ rows p' w' = rows p w
    ∧ currBuckt p' = currBuckt p.
Proof.
  intros Hu Hn Ht. unfold Tally. cbv zeta. rewrite bind_self.
  destruct (get_usable p w (currBuckt p) (tallyKey key) Hu)
    as (p' & w' & HG & Hu' & Hr' & Hc').
  rewrite (bind_run _ _ _ _ _ _ _ HG). cbv beta iota.
  fold (tally p w key). rewrite Ht.
  destruct (number_read n Hn) as (Hv & Hl & _). rewrite Hl, bind_ret, Hv.
  by exists p', w'.
Qed.

(** [Tally] on a counter without a record writes the offset and returns 0. *)
Lemma Tally_usable_fresh (p : SQLtPlainKV) (w : sql.World) (key : string)
    (offset : Z) :
  usable p w = true → int64 offset → tally p w key = [] →
  (len_string (currBuckt p) <= 50)%Z → (len_string key <= 286)%Z →
  ∃ p' w', Tally key offset p w = Ret (0%Z, None) p' w'
    ∧ usable p' w' = true
    ∧ rows p' w' = <[(currBuckt p, tallyKey key) := number offset]> (rows p w)
    ∧ currBuckt p' = currBuckt p.
Proof.
  intros Hu Hn Ht Hb Hk. unfold Tally. cbv zeta. rewrite bind_self.
  destruct (get_usable p w (currBuckt p) (tallyKey key) Hu)
    as (p1 & w1 & HG & Hu1 & Hr1 & Hc1).
  rewrite (bind_run _ _ _ _ _ _ _ HG). cbv beta iota.
  fold (tally p w key). rewrite Ht.
  change (len_bytes [] =? 0)%Z with true. cbv iota.
  destruct (number_read offset Hn) as (_ & _ & Hl).
  destruct (set_usable p1 w1 (currBuckt p1) (tallyKey key) (number offset) Hu1)
    as (p2 & w2 & HS & Hu2 & Hr2 & Hc2);
    [congruence | rewrite len_tallyKey; lia | done |].
  assert (HS' : (p0 <~ self ;; set (currBuckt p0) (tallyKey key)
                   (list_byte_of_string (strconv.Itoa offset))) p1 w1
                = Ret None p2 w2) by (by rewrite bind_self).
  rewrite (bind_run _ _ _ _ _ _ _ HS'). cbv beta iota.
  exists p2, w2. split; [done|]. split; [done|]. split; congruence.
Qed.

Lemma tally_after_write (p p' : SQLtPlainKV) (w w' : sql.World) (key : string)
    (v : list byte) :
  currBuckt p ≠ "" → currBuckt p' = currBuckt p →
  rows p' w' = <[(currBuckt p, tallyKey key) := v]> (rows p w) →
  tally p' w' key = v.
Proof.
  intros Hc Hc' Hr. unfold tally. rewrite Hc', Hr.
  rewrite (bucket_or_default_id _ Hc). by rewrite lookup_insert_eq.
Qed.

(** One step of a counter: [Tally key 0], then the write of the number
    next to the one read. *)
Lemma Tally_step_usable (p : SQLtPlainKV) (w : sql.World) (key : string)
    (n : Z) (next : Z → Z) :
  usable p w = true → currBuckt p ≠ "" →
  (len_string (currBuckt p) <= 50)%Z → (len_string key <= 286)%Z →
  int64 n → counts p w key n →
  ∃ p' w',
    (r <~ Tally key 0 ;;
     let '(tlly, err) := r in
     match err with
     | Some e => ret (tlly, Some e)
     | None =>
         p <~ self ;;
         err <~ set (currBuckt p) (tallyKey key)
                  (list_byte_of_string (strconv.Itoa (wrap_int (next tlly)))) ;;
         match err with
         | Some e => ret (tlly, Some e)
         | None => ret (wrap_int (next tlly), None)
         end
     end) p w = Ret (wrap_int (next n), None) p' w'
    ∧ usable p' w' = true
    ∧ rows p' w'
      = <[(currBuckt p, tallyKey key) := number (wrap_int (next n))]> (rows p w)
    ∧ currBuckt p' = currBuckt p.
Proof.
  intros Hu Hc Hb Hk Hn Ht.
  assert (∃ p1 w1, Tally key 0 p w = Ret (n, None) p1 w1
            ∧ usable p1 w1 = true ∧ currBuckt p1 = currBuckt p
            ∧ ∀ v, <[(currBuckt p, tallyKey key) := v]> (rows p1 w1)
                   = <[(currBuckt p, tallyKey key) := v]> (rows p w))
    as (p1 & w1 & HT & Hu1 & Hc1 & Hr1).
  { destruct Ht as [Ht|[Ht ->]].
    - destruct (Tally_usable_counting p w key 0 n Hu Hn Ht)
        as (p1 & w1 & HT & Hu1 & Hr1 & Hc1).
      exists p1, w1. by rewrite Hr1.
    - destruct (Tally_usable_fresh p w key 0 Hu Hn Ht Hb Hk)
        as (p1 & w1 & HT & Hu1 & Hr1 & Hc1).
      exists p1, w1. rewrite Hr1. do 3 (split; [done|]).
      intros v. apply insert_insert_eq. }
  rewrite (bind_run _ _ _ _ _ _ _ HT). cbv beta iota. rewrite bind_self.
  destruct (number_read _ (int64_wrap_int (next n))) as (_ & _ & Hl).
  destruct (set_usable p1 w1 (currBuckt p1) (tallyKey key)
              (number (wrap_int (next n))) Hu1)
    as (p2 & w2 & HS & Hu2 & Hr2 & Hc2);
    [congruence | rewrite len_tallyKey; lia | done |].
  unfold number in HS at 1.
  rewrite (bind_run _ _ _ _ _ _ _ HS). cbv beta iota.
  exists p2, w2. split; [done|]. split; [done|].
  split; [|congruence]. rewrite Hr2, Hc1. apply Hr1.
Qed.

Lemma TallyIncr_usable (p : SQLtPlainKV) (w : sql.World) (key : string) (n : Z) :
  usable p w = true → currBuckt p ≠ "" →
  (len_string (currBuckt p) <= 50)%Z → (len_string key <= 286)%Z →
  int64 n → counts p w key n →
  ∃ p' w', TallyIncr key p w = Ret (wrap_int (n + 1), None) p' w'
    ∧ usable p' w' = true
    ∧ rows p' w'
      = <[(currBuckt p, tallyKey key) := number (wrap_int (n + 1))]> (rows p w)
    ∧ currBuckt p' = currBuckt p.
Proof. exact (λ Hu Hc, Tally_step_usable p w key n (λ t, t + 1)%Z Hu Hc). Qed.

Lemma TallyDecr_usable (p : SQLtPlainKV) (w : sql.World) (key : string) (n : Z) :
  usable p w = true → currBuckt p ≠ "" →
  (len_string (currBuckt p) <= 50)%Z → (len_string key <= 286)%Z →
  int64 n → counts p w key n →
  ∃ p' w', TallyDecr key p w = Ret (wrap_int (n - 1), None) p' w'
    ∧ usable p' w' = true
    ∧ rows p' w'
      = <[(currBuckt p, tallyKey key) := number (wrap_int (n - 1))]> (rows p w)
    ∧ currBuckt p' = currBuckt p.
Proof. exact (λ Hu Hc, Tally_step_usable p w key n (λ t, t - 1)%Z Hu Hc). Qed.

Lemma result_run {A} (m : M A) p w a p' w' :
  m p w = Ret a p' w' →
  result (m p w) = Some a ∧ store_of (m p w) = p' ∧ world_of (m p w) = w'.
Proof. by intros ->. Qed.

(** X15. On a store that can run the call, [Tally] on a counter that has a
    record returns the number stored there, whatever the offset, and
    changes no row. *)
Theorem Tally_reads_counter (p : SQLtPlainKV) (w : sql.World) (key : string)
    (offset n : Z) :
  usable p w = true → int64 n → tally p w key = number n →
  let o := Tally key offset p w in
  result o = Some (n, None) ∧ rows (store_of o) (world_of o) = rows p w.
Proof.
  intros Hu Hn Ht o.
  destruct (Tally_usable_counting p w key offset n Hu Hn Ht)
    as (p' & w' & (Hr & Hp & Hw)%result_run & _ & Hrows & _).
  subst o. by rewrite Hr, Hp, Hw.
Qed.

Lemma Tally_reads_counter_witness :
  result (Tally "hits" 7 (store_of counted) (world_of counted)) = Some (2%Z, None).
Proof.
  destruct (Tally_reads_counter (store_of counted) (world_of counted) "hits" 7 2)
    as (H & _); [reflexivity | by vm_compute | reflexivity |].
  exact H.
Defined.

(** X16. [TallyIncr] and [TallyDecr] on a counter that stands at [n]
    (no record counts as 0) return [n + 1] and [n - 1] in Go's [int] and
    leave that number in the record; a [TallyDecr] after a [TallyIncr]
    returns [n] again. *)
Theorem TallyIncr_TallyDecr_step (p : SQLtPlainKV) (w : sql.World)
    (key : string) (n : Z) :
  usable p w = true → currBuckt p ≠ "" →
  (len_string (currBuckt p) <= 50)%Z → (len_string key <= 286)%Z →
  int64 n → counts p w key n →
  let i := TallyIncr key p w in
  let d := TallyDecr key p w in
  result i = Some (wrap_int (n + 1), None)
  ∧ tally (store_of i) (world_of i) key = number (wrap_int (n + 1))
  ∧ result d = Some (wrap_int (n - 1), None)
  ∧ tally (store_of d) (world_of d) key = number (wrap_int (n - 1))
  ∧ result ((TallyIncr key ;;; TallyDecr key) p w) = Some (n, None).
Proof.
  intros Hu Hc Hb Hk Hn Ht i d.
  destruct (TallyIncr_usable p w key n Hu Hc Hb Hk Hn Ht)
    as (p1 & w1 & HI & Hu1 & Hr1 & Hc1).
  destruct (TallyDecr_usable p w key n Hu Hc Hb Hk Hn Ht)
    as (p2 & w2 & HD & Hu2 & Hr2 & Hc2).
  pose proof (tally_after_write p p1 w w1 key _ Hc Hc1 Hr1) as Ht1.
  pose proof (tally_after_write p p2 w w2 key _ Hc Hc2 Hr2) as Ht2.
  destruct (TallyDecr_usable p1 w1 key (wrap_int (n + 1)))
    as (p3 & w3 & HD3 & _); [done|congruence|congruence|done| |by left|].
  { apply int64_wrap_int. }
  subst i d. rewrite (bind_run _ _ _ _ _ _ _ HI), HI, HD, HD3. simpl.
  do 4 (split; [done|]). do 3 f_equal.
  replace (wrap_int (n + 1) - 1)%Z with (wrap_int (n + 1) + -1)%Z by lia.
  rewrite wrap_int_add. replace (n + 1 + -1)%Z with n by lia.
  by apply wrap_int_int64.
Qed.

Lemma TallyIncr_TallyDecr_step_witness :
  result (TallyIncr "hits" (store_of counted) (world_of counted)) = Some (3%Z, None)
  ∧ result (TallyDecr "hits" (store_of counted) (world_of counted)) = Some (1%Z, None).
Proof.
  destruct (TallyIncr_TallyDecr_step (store_of counted) (world_of counted) "hits" 2)
    as (HI & _ & HD & _);
    [reflexivity | discriminate | by vm_compute | by vm_compute | by vm_compute
    | by left |].
  split; [exact HI|exact HD].
Defined.

(** A loop of calls that each move the counter by [s]. *)
Lemma times_counting (body : string → M (Z * option error)) (s : Z) (key : string) :
  (∀ p w n,
     usable p w = true → currBuckt p ≠ "" →
     (len_string (currBuckt p) <= 50)%Z → (len_string key <= 286)%Z →
     int64 n → counts p w key n →
     ∃ p' w', body key p w = Ret (wrap_int (n + s), None) p' w'
       ∧ usable p' w' = true
       ∧ rows p' w'
         = <[(currBuckt p, tallyKey key) := number (wrap_int (n + s))]> (rows p w)
       ∧ currBuckt p' = currBuckt p) →
  ∀ k p w n,
    usable p w = true → currBuckt p ≠ "" →
    (len_string (currBuckt p) <= 50)%Z → (len_string key <= 286)%Z →
    int64 n → counts p w key n →
    result (times k (body key) p w)
    = Some ((λ i, (wrap_int (n + s * Z.of_nat i), None)) <$> seq 1 k).
Proof.
  intros Hbody k. induction k as [|k IH]; intros p w n Hu Hc Hb Hk Hn Ht; [done|].
  destruct (Hbody p w n Hu Hc Hb Hk Hn Ht) as (p1 & w1 & HB & Hu1 & Hr1 & Hc1).
  pose proof (tally_after_write p p1 w w1 key _ Hc Hc1 Hr1) as Ht1.
  cbn [times]. rewrite (bind_run _ _ _ _ _ _ _ HB).
  assert (Hc1' : currBuckt p1 ≠ "") by congruence.
  assert (Hb1 : (len_string (currBuckt p1) <= 50)%Z) by congruence.
  pose proof (IH p1 w1 (wrap_int (n + s)) Hu1 Hc1' Hb1 Hk
                (int64_wrap_int _) (or_introl Ht1)) as IH1.
  unfold bind at 1.
  destruct (times k (body key) p1 w1) as [l p2 w2|p2 w2]; [|done].
  simpl in *. injection IH1 as ->. f_equal.
  cbn [seq fmap list_fmap]. f_equal.
  - do 2 f_equal. lia.
  - rewrite <- (fmap_S_seq 1), <- list_fmap_compose. apply list_fmap_ext.
    intros _ i _. simpl. f_equal. rewrite wrap_int_add. f_equal. lia.
Qed.

(** X17. A loop of [k] calls of [TallyIncr] on a counter that stands at
    [n] returns [n + 1], ..., [n + k], and one of [TallyDecr] returns
    [n - 1], ..., [n - k], in Go's [int] and with no error. *)
Theorem Tally_loops (p : SQLtPlainKV) (w : sql.World) (key : string)
    (n : Z) (k : nat) :
  usable p w = true → currBuckt p ≠ "" →
  (len_string (currBuckt p) <= 50)%Z → (len_string key <= 286)%Z →
  int64 n → counts p w key n →
  result (times k (TallyIncr key) p w)
  = Some ((λ i, (wrap_int (n + Z.of_nat i), None)) <$> seq 1 k)
  ∧ result (times k (TallyDecr key) p w)
    = Some ((λ i, (wrap_int (n - Z.of_nat i), None)) <$> seq 1 k).
Proof.
  intros Hu Hc Hb Hk Hn Ht. split.
  - rewrite (times_counting TallyIncr 1 key
               (λ p w n, TallyIncr_usable p w key n) k p w n Hu Hc Hb Hk Hn Ht).
    f_equal. apply list_fmap_ext. intros _ i _. simpl. do 2 f_equal. lia.
  - assert (HD : ∀ p w n,
               usable p w = true → currBuckt p ≠ "" →
               (len_string (currBuckt p) <= 50)%Z → (len_string key <= 286)%Z →
               int64 n → counts p w key n →
               ∃ p' w', TallyDecr key p w = Ret (wrap_int (n + -1), None) p' w'
                 ∧ usable p' w' = true
                 ∧ rows p' w'
                   = <[(currBuckt p, tallyKey key) := number (wrap_int (n + -1))]>
                       (rows p w)
                 ∧ currBuckt p' = currBuckt p).
    { intros p0 w0 n0 ? ? ? ? ? ?.
      replace (n0 + -1)%Z with (n0 - 1)%Z by lia. by apply TallyDecr_usable. }
    rewrite (times_counting TallyDecr (-1) key HD k p w n Hu Hc Hb Hk Hn Ht).
    f_equal; apply list_fmap_ext; intros _ i _; cbv beta; do 2 f_equal; lia.
Qed.

Lemma Tally_loops_witness :
  result (times 10 (TallyIncr "sample") fresh_store fresh_world)
  = Some ((λ i, (wrap_int (0 + Z.of_nat i), None)) <$> seq 1 10).
Proof.
  destruct (Tally_loops fresh_store fresh_world "sample" 0 10) as (H & _);
    [reflexivity | discriminate | by vm_compute | by vm_compute | by vm_compute
    | by right |].
  exact H.
Defined.

(** X18. After [TallyReset] the counter stands at 0: [Tally] returns 0
    whatever the offset and the number before, and [TallyIncr] returns 1. *)
Theorem TallyReset_then_Tally (p : SQLtPlainKV) (w : sql.World) (key : string)
    (offset : Z) :
  usable p w = true → currBuckt p ≠ "" →
  (len_string (currBuckt p) <= 50)%Z → (len_string key <= 286)%Z →
  result ((e <~ TallyReset key ;; r <~ Tally key offset ;; ret (e, r)) p w)
  = Some (None, (0%Z, None))
  ∧ result ((TallyReset key ;;; TallyIncr key) p w) = Some (1%Z, None).
Proof.
  intros Hu Hc Hb Hk.
  destruct (set_usable p w (currBuckt p) (tallyKey key) (number 0) Hu)
    as (p1 & w1 & HS & Hu1 & Hr1 & Hc1);
    [done | rewrite len_tallyKey; lia | by vm_compute |].
  assert (HR : TallyReset key p w = Ret None p1 w1).
  { unfold TallyReset. cbv zeta. by rewrite bind_self. }
  pose proof (tally_after_write p p1 w w1 key _ Hc Hc1 Hr1) as Ht1.
  assert (H0 : int64 0) by (by vm_compute).
  destruct (Tally_usable_counting p1 w1 key offset 0 Hu1 H0 Ht1)
    as (p2 & w2 & HT & _).
  destruct (TallyIncr_usable p1 w1 key 0)
    as (p3 & w3 & HI & _); [done|congruence|congruence|done|done|by left|].
  rewrite !(bind_run _ _ _ _ _ _ _ HR), (bind_run _ _ _ _ _ _ _ HT), HI.
  done.
Qed.

Lemma TallyReset_then_Tally_witness :
  result ((e <~ TallyReset "hits" ;; r <~ Tally "hits" 5 ;; ret (e, r))
            (store_of counted) (world_of counted))
  = Some (None, (0%Z, None)).
Proof.
  destruct (TallyReset_then_Tally (store_of counted) (world_of counted) "hits" 5)
    as (H & _); [reflexivity | discriminate | by vm_compute | by vm_compute |].
  exact H.
Defined.

(** X19. The counters' prefix takes 14 of the 300 bytes of a key: for a
    key longer than 286 bytes whose counter has no record, [Tally],
    [TallyIncr] and [TallyDecr] return -1 with [ErrKeyTooLong] and
    [TallyReset] returns [ErrKeyTooLong], and no row is written. *)
Theorem Tally_long_key (p : SQLtPlainKV) (w : sql.World) (key : string)
    (offset : Z) :
  usable p w = true → (len_string (currBuckt p) <= 50)%Z →
  (286 < len_string key)%Z → tally p w key = [] →
  let o := Tally key offset p w in
  result o = Some ((-1)%Z, Some ErrKeyTooLong)
  ∧ rows (store_of o) (world_of o) = rows p w
  ∧ result (TallyIncr key p w) = Some ((-1)%Z, Some ErrKeyTooLong)
  ∧ result (TallyDecr key p w) = Some ((-1)%Z, Some ErrKeyTooLong)
  ∧ result (TallyReset key p w) = Some (Some ErrKeyTooLong).
Proof.
  intros Hu Hb Hk Ht o.
  assert (HT : ∀ offset, ∃ p' w',
             Tally key offset p w = Ret ((-1)%Z, Some ErrKeyTooLong) p' w'
             ∧ rows p' w' = rows p w).
  { intros off. unfold Tally. cbv zeta. rewrite bind_self.
    destruct (get_usable p w (currBuckt p) (tallyKey key) Hu)
      as (p1 & w1 & HG & Hu1 & Hr1 & Hc1).
    rewrite (bind_run _ _ _ _ _ _ _ HG). cbv beta iota.
    fold (tally p w key). rewrite Ht.
    change (len_bytes [] =? 0)%Z with true. cbv iota.
    destruct (set_usable_key_too_long p1 w1 (currBuckt p1) (tallyKey key)
                (list_byte_of_string (strconv.Itoa off)) Hu1)
      as (p2 & w2 & HS & Hu2 & Hr2 & Hc2);
      [congruence | rewrite len_tallyKey; lia |].
    assert (HS' : (p0 <~ self ;; set (currBuckt p0) (tallyKey key)
                     (list_byte_of_string (strconv.Itoa off))) p1 w1
                  = Ret (Some ErrKeyTooLong) p2 w2) by (by rewrite bind_self).
    rewrite (bind_run _ _ _ _ _ _ _ HS'). cbv beta iota.
    exists p2, w2. split; [done|congruence]. }
  destruct (HT offset) as (p1 & w1 & (Hr & Hp & Hw)%result_run & Hrows).
  destruct (HT 0%Z) as (p2 & w2 & HT0 & _).
  destruct (set_usable_key_too_long p w (currBuckt p) (tallyKey key)
              (list_byte_of_string "0") Hu)
    as (p3 & w3 & HS & _); [done | rewrite len_tallyKey; lia |].
  subst o. rewrite Hr, Hp, Hw. do 2 (split; [done|]).
  unfold TallyIncr, TallyDecr, TallyReset. cbv zeta.
  rewrite !(bind_run _ _ _ _ _ _ _ HT0), bind_self, HS. done.
Qed.

Lemma Tally_long_key_witness :
  result (Tally long_key 0 fresh_store fresh_world)
  = Some ((-1)%Z, Some ErrKeyTooLong).
Proof.
  destruct (Tally_long_key fresh_store fresh_world long_key 0) as (H & _);
    [reflexivity | by vm_compute | by vm_compute | reflexivity |].
  exact H.
Defined.

(** ** The connection between calls *)









(** Splits on what the statements of a call return and on the tests the
    call makes, and goes on with [next]. *)
Ltac branches next :=
  repeat (match goal with
          | |- context [sql.select_value ?a ?b ?c ?d] =>
              destruct (sql.select_value a b c d) as [?|[]]
          | |- context [sql.upsert ?a ?b ?c ?v ?d] =>
              destruct (sql.upsert a b c v d)
          | |- context [sql.delete_row ?a ?b ?c ?d] =>
              destruct (sql.delete_row a b c d)
          | |- context [sql.select_keys ?a ?b ?c ?d] =>
              destruct (sql.select_keys a b c d) as [?|[]]
          | |- context [String.eqb ?c ""] => is_var c; destruct (String.eqb c "")
          | |- context [Z.ltb ?a ?b] => destruct (Z.ltb a b)
          | |- context [hd None ?l] => destruct (hd None l)
          end; expose; next).

















(** Runs one call of a store that has its connection and stays open
    between calls through all the answers of the engine. *)
Ltac wire :=
  let Hh := fresh in let Hac := fresh in
  intros p w [? Hh] Hac;
  destruct p as [dsn ? [[[] td]|] cb name ac []], w as [d fs];
  simpl in Hh, Hac; subst; unfold wiring; expose;
  branches idtac; done.

Lemma keeps_wiring_get bucket key : keeps_wiring (get bucket key).
Proof. wire. Qed.

Lemma keeps_wiring_set bucket key value : keeps_wiring (set bucket key value).
Proof. wire. Qed.

Lemma keeps_wiring_Del key : keeps_wiring (Del key).
Proof. wire. Qed.

Lemma keeps_wiring_ListKeys pattern : keeps_wiring (ListKeys pattern).
Proof. wire. Qed.

Lemma keeps_wiring_Set key value : keeps_wiring (Set_ key value).
Proof. wire. Qed.

Lemma keeps_wiring_ret {A} (a : A) : keeps_wiring (ret a).
Proof. by intros p w. Qed.

Lemma keeps_wiring_bind {A B} (m : M A) (k : A → M B) :
  keeps_wiring m → (∀ a, keeps_wiring (k a)) → keeps_wiring (bind m k).
Proof.
  intros Hm Hk p w Hdb Hac. unfold bind. specialize (Hm p w Hdb Hac).
  destruct (m p w) as [a p' w'|p' w']; simpl in *; [|done].
  rewrite <- Hm. unfold wiring in Hm. apply Hk; [|congruence].
  by replace (db p') with (db p) by congruence.
Qed.

Lemma keeps_wiring_bind_self {A} (k : SQLtPlainKV → M A) :
  (∀ p, keeps_wiring (k p)) → keeps_wiring (bind self k).
Proof. intros Hk p w Hdb Hac. rewrite bind_self. by apply Hk. Qed.

(** Goes through a method made of calls that keep the wiring. *)
Ltac wiring_kept :=
  repeat match goal with
         | |- keeps_wiring (ret _) => apply keeps_wiring_ret
         | |- keeps_wiring (get _ _) => apply keeps_wiring_get
         | |- keeps_wiring (set _ _ _) => apply keeps_wiring_set
         | H : ∀ _ _, keeps_wiring (Tally _ _) |- keeps_wiring (Tally _ _) =>
             apply H
         | |- keeps_wiring (bind self _) => apply keeps_wiring_bind_self; intros ?
         | |- keeps_wiring (bind _ _) => apply keeps_wiring_bind; [|intros ?]
         | |- _ (match ?x with _ => _ end) => destruct x
         | |- _ (let _ := _ in _) => cbv zeta
         end.

Lemma keeps_wiring_Get key : keeps_wiring (Get key).
Proof. unfold Get. wiring_kept. Qed.

Lemma keeps_wiring_GetMime key : keeps_wiring (GetMime key).
Proof. unfold GetMime. wiring_kept. Qed.

Lemma keeps_wiring_SetMime key mime : keeps_wiring (SetMime key mime).
Proof. unfold SetMime. wiring_kept. Qed.

Lemma keeps_wiring_Tally key offset : keeps_wiring (Tally key offset).
Proof. unfold Tally. wiring_kept. Qed.

Lemma keeps_wiring_TallyIncr key : keeps_wiring (TallyIncr key).
Proof. pose proof keeps_wiring_Tally. unfold TallyIncr. wiring_kept. Qed.

Lemma keeps_wiring_TallyDecr key : keeps_wiring (TallyDecr key).
Proof. pose proof keeps_wiring_Tally. unfold TallyDecr. wiring_kept. Qed.

Lemma keeps_wiring_TallyReset key : keeps_wiring (TallyReset key).
Proof. unfold TallyReset. wiring_kept. Qed.

(** X21. On a store that has its connection and is not in auto-close
    mode, no operation on records or counters opens, closes, begins or
    ends anything, whatever the engine answers: the connection, the
    presence of a transaction handle and the flags [inTransaction] and
    [autoClose] are after the call what they were before. *)
Theorem data_calls_keep_wiring (p : SQLtPlainKV) (w : sql.World)
    (bucket key pattern mime : string) (value : list byte) (offset : Z) :
  is_Some (db p) → autoClose p = false →
  let kept {A} (m : M A) := wiring (store_of (m p w)) = wiring p in
  kept (get bucket key) ∧ kept (set bucket key value)
  ∧ kept (Get key) ∧ kept (Set_ key value)
  ∧ kept (GetMime key) ∧ kept (SetMime key mime)
  ∧ kept (Del key) ∧ kept (ListKeys pattern)
  ∧ kept (Tally key offset) ∧ kept (TallyIncr key)
  ∧ kept (TallyDecr key) ∧ kept (TallyReset key).
Proof.
  intros Hdb Hac kept.
  assert (H : ∀ A (m : M A), keeps_wiring m → kept A m).
  { intros A m Hm. by apply Hm. }
  repeat split; apply H.
  - apply keeps_wiring_get.
  - apply keeps_wiring_set.
  - apply keeps_wiring_Get.
  - apply keeps_wiring_Set.
  - apply keeps_wiring_GetMime.
  - apply keeps_wiring_SetMime.
  - apply keeps_wiring_Del.
  - apply keeps_wiring_ListKeys.
  - apply keeps_wiring_Tally.
  - apply keeps_wiring_TallyIncr.
  - apply keeps_wiring_TallyDecr.
  - apply keeps_wiring_TallyReset.
Qed.

Lemma data_calls_keep_wiring_witness :
  wiring (store_of (Del "k" (store_of begun) failing_world))
  = wiring (store_of begun).
Proof.
  destruct (data_calls_keep_wiring (store_of begun) failing_world
              "" "k" "" "" [] 0) as (_ & _ & _ & _ & _ & _ & H & _);
    [by eexists | reflexivity | exact H].
Defined.

(** ** Del outside a transaction *)

(** X22. Outside a transaction the two DELETEs of [Del] are two
    statements of their own: when the engine refuses the second, [Del]
    returns its error, the record of the key in the current bucket is
    gone from the file and every other row, the content type of the key
    among them, is still there. *)
Theorem Del_half_done (p : SQLtPlainKV) (w : sql.World) (key : string)
    (msg : string) (fs : list (option string)) :
  is_Some (db p) → inTransaction p = false →
  is_Some (sql.disk w !! defTableName p) →
  sql.faults w = None :: Some msg :: fs →
  let o := Del key p w in
  result o = Some (Some (EngineError msg))
  ∧ filed (store_of o) (world_of o)
    = delete (bucket_or_default (currBuckt p), key) (filed p w).
Proof.
  intros [h Hh] Hit [tb Htb] Hf o. subst o.
  destruct p as [dsn ? t cb name ac it], w as [d fs0];
    simpl in Hh, Hit, Htb, Hf; subst.
  unfold filed, bucket_or_default. expose.
  destruct ac; expose; destruct (String.eqb cb ""); expose; simpl;
    rewrite (delete_row_table _ _ _ _ _ Htb); expose; simpl;
    repeat (match goal with
            | |- context [hd None ?l] => destruct (hd None l)
            | |- context [match ?x with Some _ => _ | None => _ end] =>
                is_var x; destruct x
            end; expose; simpl);
    by rewrite lookup_insert_eq, Htb.
Qed.

Lemma Del_half_done_witness :
  let w := sql.mkWorld (sql.disk (world_of stocked)) [None; Some "disk full"] in
  let o := Del "k" (store_of stocked) w in
  result o = Some (Some (EngineError "disk full"))
  ∧ filed (store_of o) (world_of o) !! ("default", "k") = None
  ∧ filed (store_of o) (world_of o) !! (mimeBuckt, "k")
    = Some (list_byte_of_string "application/json").
Proof.
  intros w o.
  destruct (Del_half_done (store_of stocked) w "k" "disk full" [])
    as (Hr & Hf); [by eexists | reflexivity | by eexists | reflexivity |].
  fold o in Hr, Hf. split; [exact Hr|]. rewrite Hf. split; reflexivity.
Defined.

(** ** Commit refused by the engine *)

(** X23. A Commit that the engine refuses leaves the store in its
    transaction with a handle that is finished: the file is as it was,
    [inTransaction] stays set, and [get], [Del], [ListKeys], [Commit] and
    [Rollback] after it all return [sql.ErrTxDone]. *)
Theorem refused_Commit_sticks (p : SQLtPlainKV) (w : sql.World)
    (msg bucket key pattern : string) :
  in_tx p = true → ready p w = true →
  hd None (sql.faults w) = Some msg →
  let o := Commit p w in
  result o = Some (Some (EngineError msg))
  ∧ inTransaction (store_of o) = true
  ∧ sql.disk (world_of o) = sql.disk w
  ∧ result ((Commit ;;; get bucket key) p w) = Some ([], Some ErrTxDone)
  ∧ result ((Commit ;;; Del key) p w) = Some (Some ErrTxDone)
  ∧ result ((Commit ;;; ListKeys pattern) p w) = Some ([], Some ErrTxDone)
  ∧ result ((Commit ;;; Commit) p w) = Some (Some ErrTxDone)
  ∧ result ((Commit ;;; Rollback) p w) = Some (Some ErrTxDone).
Proof.
  intros Hin Hr Hf o. subst o.
  destruct p as [dsn [h|] [[[] td]|] cb name [] []], w as [d fs];
    try done; simpl in Hf; clear Hin Hr.
  expose. rewrite Hf. expose. do 4 (split; [done|]).
  split; [by destruct (String.eqb cb ""); expose|].
  split; [by destruct (String.eqb cb ""); expose|]. done.
Qed.

Lemma refused_Commit_sticks_witness :
  let w := sql.mkWorld (sql.disk (world_of begun)) [Some "disk full"] in
  result (Commit (store_of begun) w) = Some (Some (EngineError "disk full"))
  ∧ result ((Commit ;;; Rollback) (store_of begun) w) = Some (Some ErrTxDone).
Proof.
  intros w.
  destruct (refused_Commit_sticks (store_of begun) w "disk full" "" "k" "")
    as (H1 & _ & _ & _ & _ & _ & _ & H2); [reflexivity..|].
  split; [exact H1|exact H2].
Defined.
